(** * Schema discovery, schema cache and field extraction of ml-agent

    A shallow embedding of the schema cache ([src/lib/cache.ts]), the
    schema path resolution ([src/lib/config.ts]), the schema resolver
    ([src/lib/schema-resolver.ts]) and the item commands' cache
    synchronisation and field extractors ([src/commands/items.ts]),
    followed by the properties the specification states about them.

    Asynchronous code is modelled in a monad that threads the observable
    world (file system, effect trace) and carries thrown exceptions;
    [await] is sequencing, [try]/[catch] is [try_catch]. *)

From Stdlib Require Import Ascii String ZArith List.
From stdpp Require Import base option list gmap strings.

Local Open Scope string_scope.
Local Open Scope Z_scope.

(** ** JavaScript values *)

Module Js.

(** A [number] is kept as the bit pattern of its IEEE-754 binary64
    representation; the code never computes with numbers, it only tests
    them and passes them on. *)
Definition JsNum : Type := Z.

Definition num_exponent (n : JsNum) : Z := Z.land (Z.shiftr n 52) 2047.
Definition num_mantissa (n : JsNum) : Z := Z.land n (Z.ones 52).

(** [Number.isFinite] *)
Definition num_isFinite (n : JsNum) : bool := negb (num_exponent n =? 2047).
Definition num_isNaN (n : JsNum) : bool :=
  (num_exponent n =? 2047) && negb (num_mantissa n =? 0).
(** [+0] and [-0] *)
Definition num_isZero (n : JsNum) : bool := Z.land n (Z.ones 63) =? 0.

(** The literal [100]. *)
Definition num_100 : JsNum := 0x4059000000000000.

#[warnings="-register-all"]
Inductive JVal : Type :=
| JUndefined
| JNull
| JBool (b : bool)
| JNum (n : JsNum)
| JStr (s : string)
| JArr (xs : list JVal)
| JObj (props : list (string * JVal)).

(** A plain object ([Record<string, unknown>]): its properties. *)
Abbreviation JObject := (list (string * JVal)).

Fixpoint assoc (k : string) (props : JObject) : JVal :=
  match props with
  | [] => JUndefined
  | (k', v) :: rest => if String.eqb k' k then v else assoc k rest
  end.

(** [o.k] on a property list: [undefined] when the property is missing. *)
Definition prop (o : JObject) (k : string) : JVal := assoc k o.

(** [v.k] for a value that is neither [null] nor [undefined]; arrays and
    primitives have none of the properties the code asks for. *)
Definition get (v : JVal) (k : string) : JVal :=
  match v with
  | JObj props => assoc k props
  | _ => JUndefined
  end.

(** [v?.k] *)
Definition opt_get (v : JVal) (k : string) : JVal := get v k.

(** Truthiness, as tested by [if (v)], [!v], [a && b], [a || b]. *)
Definition truthy (v : JVal) : bool :=
  match v with
  | JUndefined | JNull => false
  | JBool b => b
  | JNum n => negb (num_isZero n || num_isNaN n)
  | JStr s => negb (String.eqb s EmptyString)
  | JArr _ | JObj _ => true
  end.

(** [typeof v === "object"] (true of [null] as well). *)
Definition typeof_object (v : JVal) : bool :=
  match v with
  | JNull | JArr _ | JObj _ => true
  | _ => false
  end.

(** [v && typeof v === "object"] *)
Definition is_object (v : JVal) : bool := truthy v && typeof_object v.

(** [a ?? b] *)
Definition nullish (a b : JVal) : JVal :=
  match a with
  | JUndefined | JNull => b
  | _ => a
  end.

(** [xs[0]] on an array. *)
Definition index0 (xs : list JVal) : JVal :=
  match xs with
  | [] => JUndefined
  | x :: _ => x
  end.

(** A thrown value, as far as the handlers of this code inspect it:
    [error.code] (set by Node's [fs]), [error.data?.error] (set by the
    Slack client) and a message. *)
Record JsError : Type := mkError {
  err_code : option string;
  err_slack : option string;
  err_message : string
}.

(** A truthy optional string: [if (s)] for [s : string | undefined]. *)
Definition truthy_str (s : option string) : bool :=
  match s with
  | Some v => negb (String.eqb v EmptyString)
  | None => false
  end.

End Js.
Export Js.

(** ** The observable world and the effect monad *)

Module Effects.

(** What a path holds: a readable file, or something whose read fails
    with the given error (a directory, a file without permission).  A
    path with no entry does not exist. *)
Inductive FileNode : Type :=
| File (raw : string)
| Unreadable (e : JsError).

(** Every interaction with the outside, in the order it happens. *)
Inductive Event : Type :=
| EvReadFile (path : string)
| EvMkdir (dir : string)
| EvWriteFile (path : string) (raw : string)
| EvCall (method : string) (params : JObject).

Record World : Type := mkWorld {
  w_files : gmap string FileNode;
  (** directories whose recursive creation fails, with the error *)
  w_mkdir_fail : gmap string JsError;
  (** paths whose write fails, with the error *)
  w_write_fail : gmap string JsError;
  w_trace : list Event
}.

Inductive Outcome (A : Type) : Type :=
| Returned (a : A)
| Thrown (e : JsError).
Arguments Returned {A} a.
Arguments Thrown {A} e.

(** An asynchronous computation: effects made before a throw persist. *)
Definition M (A : Type) : Type := World -> Outcome A * World.

Definition ret {A} (a : A) : M A := fun w => (Returned a, w).
Definition throw {A} (e : JsError) : M A := fun w => (Thrown e, w).
Definition bind {A B} (c : M A) (k : A -> M B) : M B :=
  fun w =>
    match c w with
    | (Returned a, w') => k a w'
    | (Thrown e, w') => (Thrown e, w')
    end.
(** [try { c } catch (error) { h error }] *)
Definition try_catch {A} (c : M A) (h : JsError -> M A) : M A :=
  fun w =>
    match c w with
    | (Returned a, w') => (Returned a, w')
    | (Thrown e, w') => h e w'
    end.
(** A synchronous call that may throw. *)
Definition lift {A} (o : Outcome A) : M A := fun w => (o, w).

Definition emit (ev : Event) (w : World) : World :=
  mkWorld (w_files w) (w_mkdir_fail w) (w_write_fail w) (w_trace w ++ [ev]).

(** The error of reading a path that does not exist. *)
Definition enoent (path : string) : JsError :=
  mkError (Some "ENOENT") None ("ENOENT: no such file or directory, open " ++ path).

(** [fs.readFile(path, "utf-8")] *)
Definition fs_readFile (path : string) : M string :=
  fun w =>
    let w' := emit (EvReadFile path) w in
    match w_files w !! path with
    | Some (File raw) => (Returned raw, w')
    | Some (Unreadable e) => (Thrown e, w')
    | None => (Thrown (enoent path), w')
    end.

(** [fs.mkdir(dir, { recursive: true })] *)
Definition fs_mkdir (dir : string) : M unit :=
  fun w =>
    let w' := emit (EvMkdir dir) w in
    match w_mkdir_fail w !! dir with
    | Some e => (Thrown e, w')
    | None => (Returned tt, w')
    end.

(** [fs.writeFile(path, raw, "utf-8")] *)
Definition fs_writeFile (path raw : string) : M unit :=
  fun w =>
    match w_write_fail w !! path with
    | Some e => (Thrown e, emit (EvWriteFile path raw) w)
    | None =>
        (Returned tt,
         emit (EvWriteFile path raw)
           (mkWorld (<[path := File raw]> (w_files w))
                    (w_mkdir_fail w) (w_write_fail w) (w_trace w)))
    end.

(** The list service client: [client.call(method, params)] resolves to a
    response object or rejects. *)
Record SlackListsClient : Type := mkClient {
  respond : string -> JObject -> Outcome JObject
}.

Definition call (client : SlackListsClient) (method : string) (params : JObject)
  : M JObject :=
  fun w => (respond client method params, emit (EvCall method params) w).

(** How a block of statements ends: by a [return], or by reaching its end. *)
Inductive Flow (R : Type) : Type :=
| Return (r : R)
| Fallthrough.
Arguments Return {R} r.
Arguments Fallthrough {R}.


End Effects.
Export Effects.

Declare Scope eff_scope.
Delimit Scope eff_scope with eff.
Notation "'let*' x ':=' c 'in' k" := (bind c (fun x => k))
  (at level 10, x name, c at level 100, k at level 200) : eff_scope.
Notation "c ';;' k" := (bind c (fun _ => k))
  (at level 100, k at level 200, right associativity) : eff_scope.
Local Open Scope eff_scope.

(** ** Schemas ([src/lib/types.ts], [src/lib/schema.ts]) *)

Module Schema.

Record Choice : Type := mkChoice {
  choice_value : string;
  choice_label : string
}.

Record Column : Type := mkColumn {
  col_id : string;
  col_key : string;
  col_name : string;
  col_type : string;
  col_options : option (list Choice)
}.

Record ListSchema : Type := mkSchema {
  list_id : string;
  columns : list Column
}.

(** The first column with the given id. *)
Definition find_column (id : string) (cols : list Column) : option Column :=
  List.find (fun c => String.eqb (col_id c) id) cols.

Definition has_column (id : string) (cols : list Column) : bool :=
  existsb (fun c => String.eqb (col_id c) id) cols.

(** One step of the union by id: a column whose id is already recorded is
    dropped, a column with a new id goes to the end. *)
Definition add_missing (acc : list Column) (c : Column) : list Column :=
  if has_column (col_id c) acc then acc else acc ++ [c].

(** Modelled from the spec: [mergeSchemas] of [src/lib/schema.ts], which is
    not among the sources.  Section 4.2: "union of columns by id; on id
    collision the existing (previously recorded) column definition wins
    [...]; new columns from the candidate are appended after existing
    ones, preserving existing order".  With no existing schema the
    candidate is the result. *)
Definition mergeSchemas (existing : option ListSchema) (candidate : ListSchema)
  : ListSchema :=
  match existing with
  | None => candidate
  | Some e => mkSchema (list_id e) (fold_left add_missing (columns candidate) (columns e))
  end.

(** The candidate columns that a merge into [acc] appends, in order. *)
Fixpoint fresh_columns (acc : list Column) (cand : list Column) : list Column :=
  match cand with
  | [] => []
  | c :: rest =>
      if has_column (col_id c) acc then fresh_columns acc rest
      else c :: fresh_columns (acc ++ [c]) rest
  end.

(** The functions of [src/lib/schema.ts] that the resolver and the item
    commands call and whose code is not among the sources.  They are pure;
    the two that digest service data may throw. *)
Class SchemaLib : Type := {
  SchemaIndex : Type;
  buildSchemaIndex : ListSchema -> SchemaIndex;
  normalizeSchema : JObject -> Outcome ListSchema;
  inferSchemaFromItems : string -> list JVal -> Outcome ListSchema;
  (** decoding of a user-supplied schema file, see [loadSchemaFromFile] *)
  decodeSchemaFile : string -> Outcome ListSchema
}.

(** Modelled from the spec: [loadSchemaFromFile] of [src/lib/schema.ts],
    which is not among the sources.  Section 4.3, tier 1: "load and index
    it directly; bypasses cache, no cache write": the file at the given
    path is read and decoded. *)
Definition loadSchemaFromFile `{SchemaLib} (path : string) : M ListSchema :=
  let* raw := fs_readFile path in
  lift (decodeSchemaFile raw).

End Schema.
Export Schema.

(** ** The host: Node's [path] and [JSON], and the conversions of the language *)

Module Host.

Class Builtins : Type := {
  (** [path.join(...parts)] *)
  path_join : list string -> string;
  (** [path.dirname(p)] *)
  path_dirname : string -> string;
  (** [JSON.stringify(schema, null, 2)] *)
  JSON_stringify : ListSchema -> string;
  (** [JSON.parse(raw) as ListSchema]; [None] is a [SyntaxError] *)
  JSON_parse : string -> option ListSchema;
  (** [Number(v)] *)
  js_Number : JVal -> JsNum;
  (** [String(v)] *)
  js_String : JVal -> string;
  (** [s.trim()] *)
  js_trim : string -> string
}.

Definition syntax_error : JsError :=
  mkError None None "SyntaxError: Unexpected token in JSON".

Definition parse_schema `{Builtins} (raw : string) : M ListSchema :=
  match JSON_parse raw with
  | Some schema => ret schema
  | None => throw syntax_error
  end.

(** [process.env] and [os.homedir()], as far as this code reads them. *)
Record Env : Type := mkEnv {
  XDG_CONFIG_HOME : option string;
  homedir : string;
  SLACK_LIST_SCHEMA_PATH : option string
}.

End Host.
Export Host.

(** ** The schema cache ([src/lib/cache.ts]) *)

Module Cache.
Section Defs.
Context `{Builtins}.

Definition NEW_CACHE_DIR : string := "ml-agent".
Definition LEGACY_CACHE_DIR : string := "slack-lists-cli".

(** [process.env.XDG_CONFIG_HOME || path.join(os.homedir(), ".config")] *)
Definition config_base (env : Env) : string :=
  if truthy_str (XDG_CONFIG_HOME env)
  then default EmptyString (XDG_CONFIG_HOME env)
  else path_join [homedir env; ".config"].

(** Both branches of the [existsSync] test return the same directory. *)
Definition getCacheDir (env : Env) : string :=
  path_join [config_base env; NEW_CACHE_DIR].

Definition getLegacyCacheDir (env : Env) : string :=
  path_join [config_base env; LEGACY_CACHE_DIR].

Definition getSchemaCachePath (env : Env) (listId : string) : string :=
  path_join [getCacheDir env; "schemas"; listId ++ ".json"].

Definition legacySchemaCachePath (env : Env) (listId : string) : string :=
  path_join [getLegacyCacheDir env; "schemas"; listId ++ ".json"].

(** [code === "ENOENT"] *)
Definition is_enoent (e : JsError) : bool :=
  match err_code e with
  | Some c => String.eqb c "ENOENT"
  | None => false
  end.

Definition loadCachedSchema (env : Env) (listId : string) : M (option ListSchema) :=
  let filePath := getSchemaCachePath env listId in
  try_catch
    (let* raw := fs_readFile filePath in
     let* schema := parse_schema raw in
     ret (Some schema))
    (fun error =>
       if is_enoent error then
         let legacyPath := legacySchemaCachePath env listId in
         try_catch
           (let* legacyRaw := fs_readFile legacyPath in
            let* schema := parse_schema legacyRaw in
            ret (Some schema))
           (fun legacyError =>
              if is_enoent legacyError then ret None
              else throw legacyError)
       else throw error).

Definition saveSchemaCache (env : Env) (listId : string) (schema : ListSchema) : M unit :=
  let filePath := getSchemaCachePath env listId in
  fs_mkdir (path_dirname filePath) ;;
  fs_writeFile filePath (JSON_stringify schema).

Definition updateSchemaCache (env : Env) (listId : string) (schema : ListSchema)
  : M ListSchema :=
  let* cached := loadCachedSchema env listId in
  let merged := mergeSchemas cached schema in
  saveSchemaCache env listId merged ;;
  ret merged.

End Defs.
End Cache.
Export Cache.

(** ** Configuration ([src/lib/config.ts]) *)

Module Config.

(** [cliPath ?? process.env.SLACK_LIST_SCHEMA_PATH] *)
Definition resolveSchemaPath (env : Env) (cliPath : option string) : option string :=
  match cliPath with
  | Some p => Some p
  | None => SLACK_LIST_SCHEMA_PATH env
  end.

End Config.
Export Config.

(** ** The schema resolver ([src/lib/schema-resolver.ts]) *)

Module Resolver.
Section Defs.
Context `{Builtins} `{SchemaLib}.

(** [(error as { data?: { error?: string } })?.data?.error !== "unknown_method"] *)
Definition not_unknown_method (e : JsError) : bool :=
  match err_slack e with
  | Some c => negb (String.eqb c "unknown_method")
  | None => true
  end.

(** [slackError && slackError !== "unknown_method"] *)
Definition slack_error_other (e : JsError) : bool :=
  truthy_str (err_slack e) && not_unknown_method e.

(** [(itemsResult as { items?: Record<string, unknown>[] }).items ?? []] *)
Definition items_of (result : JObject) : list JVal :=
  match prop result "items" with
  | JArr xs => xs
  | _ => []
  end.

(** The first [try] statement: the remote describe call. *)
Definition describe_block (env : Env) (client : SlackListsClient) (listId : string)
  : M (Flow (option SchemaIndex)) :=
  try_catch
    (let* result := call client "slackLists.info" [("list_id", JStr listId)] in
     if truthy (prop result "ok") then
       let* schema := lift (normalizeSchema result) in
       saveSchemaCache env listId schema ;;
       ret (Return (Some (buildSchemaIndex schema)))
     else ret Fallthrough)
    (fun error =>
       if not_unknown_method error then throw error else ret Fallthrough).

(** The inner [try] statement: the detail of the first item. *)
Definition item_info_block (env : Env) (client : SlackListsClient) (listId : string)
    (firstItemId : JVal) : M (Flow (option SchemaIndex)) :=
  try_catch
    (let* infoResult :=
       call client "slackLists.items.info" [("list_id", JStr listId); ("id", firstItemId)] in
     let list := prop infoResult "list" in
     if truthy (opt_get list "list_metadata") then
       let* schema :=
         lift (normalizeSchema
                 [("list_metadata", get list "list_metadata");
                  ("list_id", nullish (get list "id") (JStr listId))]) in
       saveSchemaCache env listId schema ;;
       ret (Return (Some (buildSchemaIndex schema)))
     else ret Fallthrough)
    (fun error =>
       if slack_error_other error then throw error else ret Fallthrough).

(** The statements after the inner [try]: inference from the sample. *)
Definition infer_block (env : Env) (listId : string) (items : list JVal)
  : M (Flow (option SchemaIndex)) :=
  let* inferred := lift (inferSchemaFromItems listId items) in
  if (length (columns inferred) =? 0)%nat then ret (Return None)
  else
    let* merged := updateSchemaCache env listId inferred in
    ret (Return (Some (buildSchemaIndex merged))).

(** The second [try] statement: sample items, their metadata, inference. *)
Definition sample_block (env : Env) (client : SlackListsClient) (listId : string)
  : M (Flow (option SchemaIndex)) :=
  try_catch
    (let* itemsResult :=
       call client "slackLists.items.list"
         [("list_id", JStr listId); ("limit", JNum num_100)] in
     let items := items_of itemsResult in
     let firstItemId := opt_get (index0 items) "id" in
     let* info :=
       (if truthy firstItemId
        then item_info_block env client listId firstItemId
        else ret Fallthrough) in
     match info with
     | Return r => ret (Return r)
     | Fallthrough => infer_block env listId items
     end)
    (fun error =>
       if not_unknown_method error then throw error else ret Fallthrough).

Definition resolveSchemaIndex (env : Env) (client : SlackListsClient)
    (listId : string) (schemaPath : option string) (refreshCache : bool)
  : M (option SchemaIndex) :=
  let resolvedPath := resolveSchemaPath env schemaPath in
  if truthy_str resolvedPath then
    let* schema := loadSchemaFromFile (default EmptyString resolvedPath) in
    ret (Some (buildSchemaIndex schema))
  else
    let* cached :=
      (if negb refreshCache then loadCachedSchema env listId else ret None) in
    match cached with
    | Some c => ret (Some (buildSchemaIndex c))
    | None =>
        let* described := describe_block env client listId in
        match described with
        | Return r => ret r
        | Fallthrough =>
            let* sampled := sample_block env client listId in
            match sampled with
            | Return r => ret r
            | Fallthrough => ret None
            end
        end
    end.

End Defs.
End Resolver.
Export Resolver.

(** ** Item commands ([src/commands/items.ts]) *)

Module Items.
Section Defs.
Context `{Builtins} `{SchemaLib}.

(** [try { ... } catch { }]: the handler ignores the error. *)
Definition swallow (c : M unit) : M unit := try_catch c (fun _ => ret tt).

Definition syncSchemaCache (env : Env) (listId : string) (items : list JVal) : M unit :=
  swallow
    (let* inferred := lift (inferSchemaFromItems listId items) in
     let* _ := updateSchemaCache env listId inferred in
     ret tt).



(** The properties of a value that passed [typeof field === "object"]. *)
Definition props_of (v : JVal) : JObject :=
  match v with
  | JObj props => props
  | _ => []
  end.

(** [findField(item, columnId)]; [None] is [null]. *)
Fixpoint find_in_fields (fields : list JVal) (columnId : string) : option JObject :=
  match fields with
  | [] => None
  | field :: rest =>
      if is_object field &&
         match get field "column_id" with
         | JStr c => String.eqb c columnId
         | _ => false
         end
      then Some (props_of field)
      else find_in_fields rest columnId
  end.

Definition findField (item : JObject) (columnId : string) : option JObject :=
  match prop item "fields" with
  | JArr fields => find_in_fields fields columnId
  | _ => None
  end.


Definition to_Number (v : JVal) : JsNum :=
  match v with
  | JNum n => n
  | _ => js_Number v
  end.














End Defs.
End Items.
Export Items.


(** ** Vocabulary of the statements *)

Module Vocabulary.

(** A world after more events, with the same files. *)
Definition with_events (w : World) (evs : list Event) : World :=
  mkWorld (w_files w) (w_mkdir_fail w) (w_write_fail w) (w_trace w ++ evs)%list.

(** The world after a successful write of [raw] at [path], before the
    trace records it. *)
Definition with_file (w : World) (path raw : string) : World :=
  mkWorld (<[path := File raw]> (w_files w)) (w_mkdir_fail w) (w_write_fail w) (w_trace w).

(** A found schema, as [loadCachedSchema] returns it. *)
Definition found (o : Outcome ListSchema) : Outcome (option ListSchema) :=
  match o with
  | Returned schema => Returned (Some schema)
  | Thrown e => Thrown e
  end.

Section Defs.
Context `{Builtins}.

(** What reading and parsing the file at a path gives. *)
Definition read_schema (w : World) (path : string) : Outcome ListSchema :=
  match w_files w !! path with
  | Some (File raw) =>
      match JSON_parse raw with
      | Some schema => Returned schema
      | None => Thrown syntax_error
      end
  | Some (Unreadable e) => Thrown e
  | None => Thrown (enoent path)
  end.

(** The path does not exist: reading it fails with code [ENOENT]. *)
Definition missing (w : World) (path : string) : bool :=
  match w_files w !! path with
  | Some (File _) => false
  | Some (Unreadable e) => is_enoent e
  | None => true
  end.

(** The cache of the list can be written. *)
Definition writable (env : Env) (listId : string) (w : World) : Prop :=
  w_mkdir_fail w !! path_dirname (getSchemaCachePath env listId) = None /\
  w_write_fail w !! getSchemaCachePath env listId = None.

(** The events of a successful [saveSchemaCache]. *)
Definition save_events (env : Env) (listId : string) (schema : ListSchema) : list Event :=
  [EvMkdir (path_dirname (getSchemaCachePath env listId));
   EvWriteFile (getSchemaCachePath env listId) (JSON_stringify schema)].

(** The events of a [loadCachedSchema]. *)
Definition load_events (env : Env) (listId : string) (w : World) : list Event :=
  if missing w (getSchemaCachePath env listId)
  then [EvReadFile (getSchemaCachePath env listId);
        EvReadFile (legacySchemaCachePath env listId)]
  else [EvReadFile (getSchemaCachePath env listId)].

(** What a [loadCachedSchema] returns. *)
Definition load_result (env : Env) (listId : string) (w : World)
  : Outcome (option ListSchema) :=
  if missing w (getSchemaCachePath env listId) then
    if missing w (legacySchemaCachePath env listId) then Returned None
    else found (read_schema w (legacySchemaCachePath env listId))
  else found (read_schema w (getSchemaCachePath env listId)).

End Defs.

(** The statement that loading a schema found only at the legacy path
    writes it to the canonical path. *)
Definition legacy_load_upgrades : Prop :=
  forall (B : Builtins) (env : Env) (listId : string) (w : World) (schema : ListSchema),
    missing w (getSchemaCachePath env listId) = true ->
    read_schema w (legacySchemaCachePath env listId) = Returned schema ->
    exists raw,
      w_files (loadCachedSchema env listId w).2 !! getSchemaCachePath env listId
      = Some (File raw) /\
      JSON_parse raw = Some schema.

End Vocabulary.
Export Vocabulary.

(** ** Vocabulary of the statements about the resolver *)

Module ResolverVocabulary.
Section Defs.
Context `{Builtins} `{SchemaLib}.

Definition describe_call (listId : string) : Event :=
  EvCall "slackLists.info" [("list_id", JStr listId)].
Definition list_call (listId : string) : Event :=
  EvCall "slackLists.items.list" [("list_id", JStr listId); ("limit", JNum num_100)].
Definition detail_call (listId : string) (id : JVal) : Event :=
  EvCall "slackLists.items.info" [("list_id", JStr listId); ("id", id)].

(** What the answers of the client are. *)
Definition describe_answer (client : SlackListsClient) (listId : string) : Outcome JObject :=
  respond client "slackLists.info" [("list_id", JStr listId)].
Definition list_answer (client : SlackListsClient) (listId : string) : Outcome JObject :=
  respond client "slackLists.items.list" [("list_id", JStr listId); ("limit", JNum num_100)].
Definition detail_answer (client : SlackListsClient) (listId : string) (id : JVal)
  : Outcome JObject :=
  respond client "slackLists.items.info" [("list_id", JStr listId); ("id", id)].

(** The id of the first sampled item: [items[0]?.id]. *)
Definition first_item_id (itemsResult : JObject) : JVal :=
  opt_get (index0 (items_of itemsResult)) "id".



(** No schema file is named and the cache tier yields nothing; [w1] is
    the world after it. *)
Definition cache_tier_passed (env : Env) (listId : string) (schemaPath : option string)
    (refreshCache : bool) (w w1 : World) : Prop :=
  truthy_str (resolveSchemaPath env schemaPath) = false /\
  if refreshCache then w1 = w
  else load_result env listId w = Returned None /\
       w1 = with_events w (load_events env listId w).

(** The describe call gives no schema and no fatal error: its answer is
    not [ok], or it fails as [unknown_method]. *)
Definition describe_unavailable (client : SlackListsClient) (listId : string) : Prop :=
  match describe_answer client listId with
  | Returned result => truthy (prop result "ok") = false
  | Thrown e => not_unknown_method e = false
  end.

(** The tiers up to the item listing have run and the listing has
    answered; [w3] is the world after the listing call. *)
Definition sampled (env : Env) (client : SlackListsClient) (listId : string)
    (schemaPath : option string) (refreshCache : bool) (w w3 : World)
    (itemsResult : JObject) : Prop :=
  exists w1,
    cache_tier_passed env listId schemaPath refreshCache w w1 /\
    describe_unavailable client listId /\
    list_answer client listId = Returned itemsResult /\
    w3 = with_events w1 [describe_call listId; list_call listId].

(** The tiers after the cache tier. *)
Definition remote_tiers (env : Env) (client : SlackListsClient) (listId : string)
  : M (option SchemaIndex) :=
  let* described := describe_block env client listId in
  match described with
  | Return r => ret r
  | Fallthrough =>
      let* sampled := sample_block env client listId in
      match sampled with
      | Return r => ret r
      | Fallthrough => ret None
      end
  end.

(** What the handler of the second [try] makes of its body. *)
Definition sample_handler (r : Outcome (Flow (option SchemaIndex)) * World)
  : Outcome (Flow (option SchemaIndex)) * World :=
  match r with
  | (Thrown e, w) =>
      if not_unknown_method e then (Thrown e, w) else (Returned Fallthrough, w)
  | _ => r
  end.

(** The statements of the resolver after the inner [try], from the world
    in which they start. *)
Definition after_inference (r : Outcome (Flow (option SchemaIndex)) * World)
  : Outcome (option SchemaIndex) * World :=
  match r with
  | (Returned (Return index), w) => (Returned index, w)
  | (Returned Fallthrough, w) => (Returned None, w)
  | (Thrown e, w) =>
      if not_unknown_method e then (Thrown e, w) else (Returned None, w)
  end.

(** The item-detail step gives no schema and no fatal error; [w4] is the
    world after it. *)
Definition detail_unavailable (env : Env) (client : SlackListsClient) (listId : string)
    (itemsResult : JObject) (w3 w4 : World) : Prop :=
  (if truthy (first_item_id itemsResult)
   then item_info_block env client listId (first_item_id itemsResult)
   else ret Fallthrough) w3 = (Returned Fallthrough, w4).

End Defs.

(** The statement that every failure of the item-detail call other than
    [unknown_method] is thrown by the resolver. *)
Definition detail_failure_fatal_unless_unsupported : Prop :=
  forall (B : Builtins) (L : SchemaLib) env client listId schemaPath refreshCache
         w w3 itemsResult e,
    sampled env client listId schemaPath refreshCache w w3 itemsResult ->
    truthy (first_item_id itemsResult) = true ->
    detail_answer client listId (first_item_id itemsResult) = Thrown e ->
    err_slack e <> Some "unknown_method" ->
    (resolveSchemaIndex env client listId schemaPath refreshCache w).1 = Thrown e.


End ResolverVocabulary.
Export ResolverVocabulary.

(** ** Vocabulary of the statements about the extractors *)

Module ItemsVocabulary.






Definition is_array (v : JVal) : bool :=
  match v with
  | JArr _ => true
  | _ => false
  end.



End ItemsVocabulary.
Export ItemsVocabulary.

(** ** A small host and schema library, to run the model on examples *)

Module Demo.

#[global] Instance Choice_eq_dec : EqDecision Choice.
Proof. solve_decision. Defined.
#[global] Instance Column_eq_dec : EqDecision Column.
Proof. solve_decision. Defined.
#[global] Instance ListSchema_eq_dec : EqDecision ListSchema.
Proof. solve_decision. Defined.

Definition col_status : Column :=
  mkColumn "Col01" "status" "Status" "select"
    (Some [mkChoice "open" "Open"; mkChoice "done" "Done"]).
Definition col_owner : Column := mkColumn "Col02" "owner" "Owner" "user" None.
(** what inference makes of a field tagged [status] holding a select *)
Definition col_status_inferred : Column := mkColumn "status" "status" "status" "select" None.
Definition col_owner_inferred : Column := mkColumn "owner" "owner" "owner" "user" None.
(** a candidate that redefines [Col01] as text *)
Definition col_status_as_text : Column := mkColumn "Col01" "status" "Status" "text" None.

Definition schema_confirmed : ListSchema := mkSchema "L1" [col_status].
Definition schema_full : ListSchema := mkSchema "L1" [col_status; col_owner].
Definition schema_inferred : ListSchema := mkSchema "L1" [col_status_inferred; col_owner_inferred].
Definition schema_candidate : ListSchema := mkSchema "L1" [col_owner; col_status_as_text].

(** The documents the example codec knows. *)
Definition documents : list (string * ListSchema) :=
  [("{confirmed}", schema_confirmed);
   ("{full}", schema_full);
   ("{inferred}", schema_inferred);
   ("{confirmed+inferred}",
    mkSchema "L1" [col_status; col_status_inferred; col_owner_inferred])].

Definition demo_stringify (schema : ListSchema) : string :=
  match List.find (fun d => bool_decide (snd d = schema)) documents with
  | Some d => fst d
  | None => "{}"
  end.

Definition demo_parse (raw : string) : option ListSchema :=
  snd <$> List.find (fun d => String.eqb (fst d) raw) documents.

(** The part of a path before its last separator. *)
Fixpoint before_last_slash (p : string) : option string :=
  match p with
  | EmptyString => None
  | String c rest =>
      match before_last_slash rest with
      | Some d => Some (String c d)
      | None => if Ascii.eqb c "/"%char then Some EmptyString else None
      end
  end.

Definition demo_dirname (p : string) : string :=
  match before_last_slash p with
  | Some EmptyString => "/"
  | Some d => d
  | None => "."
  end.

(** The examples convert strings and numbers only, for which [to_String]
    and [to_Number] do not ask the host; their paths have no [.] or [..]
    segments, so joining is concatenation. *)
#[global] Instance demo_builtins : Builtins := {|
  path_join := String.concat "/";
  path_dirname := demo_dirname;
  JSON_stringify := demo_stringify;
  JSON_parse := demo_parse;
  js_Number := fun _ => 0x7FF8000000000000;
  js_String := fun _ => "[object Object]";
  js_trim := fun s => s
|}.

(** An inference in the manner of section 4.4 of the specification: one
    column per field key, typed by the tagged variant that is present. *)
Definition demo_guess_type (field : JVal) : string :=
  match get field "select", get field "user" with
  | JArr _, _ => "select"
  | _, JArr _ => "user"
  | _, _ => "text"
  end.

Definition demo_field_columns (field : JVal) : list Column :=
  match get field "key" with
  | JStr k => [mkColumn k k k (demo_guess_type field) None]
  | _ => []
  end.

Definition demo_item_columns (item : JVal) : list Column :=
  match get item "fields" with
  | JArr fields => flat_map demo_field_columns fields
  | _ => []
  end.

Definition demo_infer (listId : string) (items : list JVal) : Outcome ListSchema :=
  Returned (mkSchema listId (fold_left add_missing (flat_map demo_item_columns items) [])).

Definition schema_error : JsError := mkError None None "TypeError: malformed schema".

(** The service describes the example list by the marker document. *)
Definition demo_normalize (raw : JObject) : Outcome ListSchema :=
  match prop raw "list_metadata" with
  | JObj _ => Returned schema_full
  | _ => Thrown schema_error
  end.

#[global] Instance demo_lib : SchemaLib := {|
  SchemaIndex := ListSchema;
  buildSchemaIndex := fun schema => schema;
  normalizeSchema := demo_normalize;
  inferSchemaFromItems := demo_infer;
  decodeSchemaFile := fun raw =>
    match demo_parse raw with
    | Some schema => Returned schema
    | None => Thrown syntax_error
    end
|}.

Definition demo_env : Env := mkEnv (Some "/cfg") "/home/u" None.

Definition canonical_path : string := "/cfg/ml-agent/schemas/L1.json".
Definition legacy_path : string := "/cfg/slack-lists-cli/schemas/L1.json".

Definition world_of (files : list (string * FileNode)) : World :=
  mkWorld (list_to_map files) ∅ ∅ [].

Definition world_empty : World := world_of [].
Definition world_canonical : World := world_of [(canonical_path, File "{confirmed}")].
Definition world_legacy : World := world_of [(legacy_path, File "{confirmed}")].

Definition unknown_method : JsError := mkError None (Some "unknown_method") "unknown_method".
Definition not_authed : JsError := mkError None (Some "not_authed") "not_authed".
Definition network_down : JsError := mkError (Some "ECONNRESET") None "socket hang up".

Definition item_sample : JVal :=
  JObj [("id", JStr "Rec1");
        ("fields",
         JArr [JObj [("key", JStr "status"); ("select", JArr [JStr "open"])];
               JObj [("key", JStr "owner"); ("user", JArr [JStr "U1"])]])].
Definition item_bare : JVal := JObj [("id", JStr "Rec1")].


Definition items_response (item : JVal) : JObject := [("items", JArr [item])].

(** A client given by its answers to the three calls of the resolver. *)
Definition client_of (info items_list items_info : Outcome JObject) : SlackListsClient :=
  mkClient (fun method _ =>
    if String.eqb method "slackLists.info" then info
    else if String.eqb method "slackLists.items.list" then items_list
    else items_info).

Definition client_detail_fails (e : JsError) (item : JVal) : SlackListsClient :=
  client_of (Thrown unknown_method) (Returned (items_response item)) (Thrown e).
Definition client_down : SlackListsClient :=
  client_of (Thrown not_authed) (Thrown not_authed) (Thrown not_authed).

(** The example worlds after the cache tier and after the item listing. *)
Definition world_cache_passed : World :=
  with_events world_empty [EvReadFile canonical_path; EvReadFile legacy_path].
Definition world_sampled : World :=
  with_events world_cache_passed [describe_call "L1"; list_call "L1"].
Definition world_detailed : World :=
  with_events world_sampled [detail_call "L1" (JStr "Rec1")].

(** A field with a date of two elements, and fields for the extractors. *)
Definition field_two_dates : JObject :=
  [("column_id", JStr "Col03");
   ("date", JArr [JStr "2024-05-01"; JStr "2024-05-02"]);
   ("value", JStr "fallback")].
Definition field_one_select : JObject :=
  [("column_id", JStr "Col01"); ("select", JArr [JStr "open"]); ("value", JStr "fallback")].

End Demo.

(** ** Numbers compared with lengths *)

Module JsNumber.

(** The sign bit of a number. *)
Definition num_sign (n : JsNum) : bool := Z.testbit n 63.

(** A finite number has the magnitude
    [num_significand n * 2 ^ num_scale n]. *)
Definition num_significand (n : JsNum) : Z :=
  if num_exponent n =? 0 then num_mantissa n else 2 ^ 52 + num_mantissa n.
Definition num_scale (n : JsNum) : Z :=
  (if num_exponent n =? 0 then 1 else num_exponent n) - 1075.

(** The integer part of the magnitude of a finite number. *)
Definition num_floor_abs (n : JsNum) : Z :=
  if 0 <=? num_scale n
  then num_significand n * 2 ^ num_scale n
  else num_significand n / 2 ^ (- num_scale n).

(** [n <= k] for a length [k]. *)
Definition num_le_nat (n : JsNum) (k : nat) : bool :=
  if num_isNaN n then false
  else if num_sign n then true
  else if negb (num_isFinite n) then false
  else if 0 <=? num_scale n
       then num_significand n * 2 ^ num_scale n <=? Z.of_nat k
       else num_significand n <=? Z.of_nat k * 2 ^ (- num_scale n).

(** [n < k] for a length [k]. *)
Definition num_lt_nat (n : JsNum) (k : nat) : bool :=
  if num_isNaN n then false
  else if num_sign n then (if num_isZero n then 0 <? Z.of_nat k else true)
  else if negb (num_isFinite n) then false
  else if 0 <=? num_scale n
       then num_significand n * 2 ^ num_scale n <? Z.of_nat k
       else num_significand n <? Z.of_nat k * 2 ^ (- num_scale n).

(** [items.slice(0, n)]: the end is truncated towards zero ([NaN] and
    what truncates to zero give the empty array), counted from the end
    of the array when negative, and clamped to the array. *)
Definition slice_to {A} (n : JsNum) (items : list A) : list A :=
  if num_isNaN n then []
  else if num_sign n then
    (if num_isFinite n && negb (num_floor_abs n =? 0)
     then take (Z.to_nat (Z.of_nat (length items) - num_floor_abs n)) items
     else [])
  else if num_isFinite n then take (Z.to_nat (num_floor_abs n)) items
  else items.

End JsNumber.
Export JsNumber.

(** ** The rest of the configuration ([src/lib/config.ts]) *)

Module ConfigMore.

(** [a ?? b] on optional strings. *)
Definition coalesce (a b : option string) : option string :=
  match a with
  | Some v => Some v
  | None => b
  end.

Record TokenOptions : Type := mkTokenOptions {
  opt_token : option string;
  opt_asUser : bool
}.

(** The token variables of [process.env]. *)
Record TokenEnv : Type := mkTokenEnv {
  SLACK_TOKEN : option string;
  SLACK_BOT_TOKEN : option string;
  SLACK_USER_TOKEN : option string
}.

Definition no_token_error : JsError :=
  mkError None None
    "No Slack token found. Set SLACK_TOKEN or SLACK_BOT_TOKEN (or SLACK_USER_TOKEN with --as-user).".

Definition resolveToken (env : TokenEnv) (options : TokenOptions) : Outcome string :=
  if truthy_str (opt_token options) then Returned (default EmptyString (opt_token options))
  else
    let userToken := coalesce (SLACK_USER_TOKEN env) (SLACK_TOKEN env) in
    if opt_asUser options && truthy_str userToken
    then Returned (default EmptyString userToken)
    else
      let token :=
        coalesce (SLACK_TOKEN env)
          (coalesce (SLACK_BOT_TOKEN env) (SLACK_USER_TOKEN env)) in
      if negb (truthy_str token) then Thrown no_token_error
      else Returned (default EmptyString token).

(** [CliConfig]: [lists] maps a list id to its channel. *)
Record CliConfig : Type := mkCliConfig {
  default_channel : option string;
  lists : option (gmap string (option string))
}.

(** The variables of [process.env] read by the channel and path lookups,
    beside those of [Env]. *)
Record ConfigEnv : Type := mkConfigEnv {
  base_env : Env;
  SLACK_LIST_DEFAULT_CHANNEL : option string;
  SLACK_LIST_CONFIG_PATH : option string;
  SLACK_LIST_THREAD_MAP_PATH : option string
}.

(** The module variable [cachedConfig]: [None] is [undefined], [Some None]
    is [null]. *)
Abbreviation Memo := (option (option CliConfig)).

Section Defs.
Context `{Builtins}.
(** [JSON.parse(contents) as CliConfig]; [None] is a [SyntaxError]. *)
Variable JSON_parse_config : string -> option CliConfig.

Definition resolveThreadMapPath (env : ConfigEnv) : string :=
  if truthy_str (SLACK_LIST_THREAD_MAP_PATH env)
  then default EmptyString (SLACK_LIST_THREAD_MAP_PATH env)
  else path_join [config_base (base_env env); "slack-lists-cli"; "threads.json"].

Definition resolveConfigPath (env : ConfigEnv) : string :=
  if truthy_str (SLACK_LIST_CONFIG_PATH env)
  then default EmptyString (SLACK_LIST_CONFIG_PATH env)
  else path_join [config_base (base_env env); "slack-lists-cli"; "config.json"].

Definition parse_config (contents : string) : M CliConfig :=
  match JSON_parse_config contents with
  | Some config => ret config
  | None => throw syntax_error
  end.

(** [loadConfig]: the memo cell goes in and comes out. *)
Definition loadConfig (env : ConfigEnv) (cachedConfig : Memo) : M (option CliConfig * Memo) :=
  match cachedConfig with
  | Some known => ret (known, cachedConfig)
  | None =>
      let filePath := resolveConfigPath env in
      if negb (truthy (JStr filePath)) then ret (None, Some None)
      else
        try_catch
          (let* contents := fs_readFile filePath in
           let* config := parse_config contents in
           ret (Some config, Some (Some config)))
          (fun _ => ret (None, Some None))
  end.



End Defs.
End ConfigMore.
Export ConfigMore.

(** ** Target URLs of screenshots ([src/lib/screenshot.ts]) *)

Module Screenshot.

(** [[a-zA-Z]] *)
Definition is_letter (c : ascii) : bool :=
  let n := nat_of_ascii c in
  ((65 <=? n) && (n <=? 90) || (97 <=? n) && (n <=? 122))%nat.

(** The rest of a string after its leading letters. *)
Fixpoint skip_letters (s : string) : string :=
  match s with
  | String c rest => if is_letter c then skip_letters rest else s
  | EmptyString => s
  end.

(** [s.startsWith(p)] *)
Definition startsWith (s p : string) : bool := String.prefix p s.

(** The test of the regular expression [^[a-zA-Z]+:\/\/]. *)
Definition has_scheme (input : string) : bool :=
  match input with
  | String c _ => is_letter c && startsWith (skip_letters input) "://"
  | EmptyString => false
  end.

(** [s.slice(1)] *)
Definition slice1 (s : string) : string :=
  match s with
  | String _ rest => rest
  | EmptyString => s
  end.

Section Defs.
Context `{Builtins}.
(** [path.resolve(p)] and [pathToFileURL(p).toString()] *)
Variable path_resolve : string -> string.
Variable pathToFileURL : string -> string.

Definition normalizeTargetUrl (home : string) (input : string) : string :=
  if has_scheme input then input
  else if startsWith input "~" then
    pathToFileURL (path_resolve (path_join [home; slice1 input]))
  else if startsWith input "/" || startsWith input "." then
    pathToFileURL (path_resolve input)
  else ("https://" ++ input)%string.

End Defs.
End Screenshot.
Export Screenshot.

(** ** Evidence fields ([src/commands/files.ts]) *)

Module Files.

(** [k in o] for a value that passed [typeof o === "object"]: an own
    property of an object; an array has none of the names asked for. *)
Definition has_key (k : string) (v : JVal) : bool :=
  match v with
  | JObj props => existsb (fun kv => String.eqb (fst kv) k) props
  | _ => false
  end.

(** The callback of the [filter] of [extractEvidence]. *)
Definition is_evidence (field : JVal) : bool :=
  if negb (truthy field) || negb (typeof_object field) then false
  else has_key "attachment" field || has_key "link" field ||
       has_key "reference" field || has_key "message" field.

Definition extractEvidence (result : JObject) : list JVal :=
  let item := prop result "item" in
  if negb (truthy item) then []
  else
    match get item "fields" with
    | JArr fields => List.filter is_evidence fields
    | _ => []
    end.

End Files.
Export Files.

(** ** Paginated listing ([src/commands/items.ts]) *)

Module Listing.
Section Defs.
Context `{Builtins}.

Definition limit_error : JsError :=
  mkError None None "--limit must be a positive number".

(** The parameters of one listing call. *)
Definition list_params (listId : string) (cursor : JVal) (archived : bool) : JObject :=
  [("list_id", JStr listId); ("limit", JNum num_100); ("cursor", cursor);
   ("archived", if archived then JBool true else JUndefined)].

(** [limit && items.length >= limit] *)
Definition limit_reached (limit : option JsNum) (items : list JVal) : bool :=
  match limit with
  | Some l => truthy (JNum l) && num_le_nat l (length items)
  | None => false
  end.

(** The [do ... while (cursor)] loop, for at most [fuel] pages; [None]
    when the loop has not ended by then. *)
Fixpoint fetch_loop (fuel : nat) (client : SlackListsClient) (listId : string)
    (archived : bool) (limit : option JsNum) (items : list JVal) (cursor : JVal)
  : M (option (list JVal)) :=
  match fuel with
  | O => ret None
  | S fuel' =>
      let* result := call client "slackLists.items.list" (list_params listId cursor archived) in
      let page := items_of result in
      let items' := (items ++ page)%list in
      let cursor' := opt_get (prop result "response_metadata") "next_cursor" in
      if limit_reached limit items' then ret (Some items')
      else if truthy cursor' then fetch_loop fuel' client listId archived limit items' cursor'
      else ret (Some items')
  end.

Definition fetchAllItems (fuel : nat) (client : SlackListsClient) (listId : string)
    (archived : bool) (limitOption : option string) : M (option (list JVal)) :=
  let limit :=
    if truthy_str limitOption
    then Some (to_Number (JStr (default EmptyString limitOption)))
    else None in
  match limit with
  | Some l =>
      if negb (num_isFinite l) || num_le_nat l 0 then throw limit_error
      else
        let* fetched := fetch_loop fuel client listId archived limit [] JUndefined in
        match fetched with
        | Some items =>
            if truthy (JNum l) && num_lt_nat l (length items)
            then ret (Some (slice_to l items))
            else ret (Some items)
        | None => ret None
        end
  | None => fetch_loop fuel client listId archived None [] JUndefined
  end.

End Defs.
End Listing.
Export Listing.

(** ** The [schema] command ([src/commands/schema.ts]) *)

Module SchemaCommand.

Class IndexView `{SchemaLib} : Type := {
  (** [schemaIndex.schema] *)
  index_schema : SchemaIndex -> ListSchema
}.

Definition schema_unavailable : JsError :=
  mkError None None
    "Schema unavailable. Provide --schema or ensure list has items to infer columns.".

Definition compact_choice (choice : Choice) : JVal :=
  JObj [("value", JStr (choice_value choice)); ("label", JStr (choice_label choice))].

(** The callback of [columns.map]. *)
Definition compact_column (column : Column) : JVal :=
  JObj ([("id", JStr (col_id column)); ("key", JStr (col_key column));
         ("name", JStr (col_name column)); ("type", JStr (col_type column))]
        ++ match col_options column with
           | Some choices =>
               [("options", JObj [("choices", JArr (map compact_choice choices))])]
           | None => []
           end)%list.

Section Defs.
Context `{Builtins} `{IndexView}.

(** The body of the [try] of the action; what [outputJson] prints is the
    value returned, what is thrown goes to [handleCommandError]. *)
Definition schema_action (env : Env) (client : SlackListsClient) (listId : string)
    (schemaPath : option string) (refreshSchema : bool) : M JObject :=
  let* schemaIndex := resolveSchemaIndex env client listId schemaPath refreshSchema in
  match schemaIndex with
  | None => throw schema_unavailable
  | Some index =>
      let columns := map compact_column (columns (index_schema index)) in
      ret [("ok", JBool true); ("list_id", JStr listId); ("columns", JArr columns)]
  end.

End Defs.
End SchemaCommand.
Export SchemaCommand.

(** ** Vocabulary of the further statements *)

Module EffectVocabulary.

Definition is_remote_call (ev : Event) : bool :=
  match ev with
  | EvCall _ _ => true
  | _ => false
  end.

Definition is_file_write (ev : Event) : bool :=
  match ev with
  | EvWriteFile _ _ => true
  | _ => false
  end.

(** The remote calls among some events, in order. *)
Definition calls_of (evs : list Event) : list Event := List.filter is_remote_call evs.

(** What a run from [w] to [w'] did: the events it added, and whether it
    changed the file at [path], the only file it may change. *)
Definition effects (path : string) (evs : list Event) (wrote : bool) (w w' : World) : Prop :=
  w_mkdir_fail w' = w_mkdir_fail w /\
  w_write_fail w' = w_write_fail w /\
  w_trace w' = (w_trace w ++ evs)%list /\
  if wrote then exists raw, w_files w' = <[path := File raw]> (w_files w)
  else w_files w' = w_files w.

(** Every run of [c] adds events whose remote calls are among [calls],
    changes no file but the one at [path], and changes that one only
    when it returns a value accepted by [final]. *)
Definition runs {A} (path : string) (c : M A) (calls : list Event -> Prop)
    (final : A -> bool) : Prop :=
  forall w,
    exists evs wrote,
      effects path evs wrote w (c w).2 /\
      calls (calls_of evs) /\
      (wrote = true -> exists a, (c w).1 = Returned a /\ final a = true).

(** The calls of a computation followed by another: those of the first
    when it throws, those of both otherwise. *)
Definition calls_seq (first second : list Event -> Prop) : list Event -> Prop :=
  fun l => first l \/ exists l1 l2, l = (l1 ++ l2)%list /\ first l1 /\ second l2.

Definition no_calls : list Event -> Prop := fun l => l = [].
Definition one_call (ev : Event) : list Event -> Prop := fun l => l = [ev].

Definition never {A} : A -> bool := fun _ => false.
Definition always {A} : A -> bool := fun _ => true.

(** A block that returns an index. *)
Definition returns_index {X} (flow : Flow (option X)) : bool :=
  match flow with
  | Return (Some _) => true
  | _ => false
  end.

Definition is_index {X} (result : option X) : bool :=
  match result with
  | Some _ => true
  | None => false
  end.

(** The calls of the second [try]: the listing, then perhaps the detail. *)
Definition sample_calls (listId : string) : list Event -> Prop :=
  fun l => l = [list_call listId] \/ exists id, l = [list_call listId; detail_call listId id].

(** The calls of the tiers after the cache tier. *)
Definition remote_calls (listId : string) : list Event -> Prop :=
  fun l =>
    l = [describe_call listId] \/
    l = [describe_call listId; list_call listId] \/
    exists id, l = [describe_call listId; list_call listId; detail_call listId id].

(** The calls of a whole resolution. *)
Definition resolve_calls (listId : string) : list Event -> Prop :=
  fun l => l = [] \/ remote_calls listId l.

(** A limit that [fetchAllItems] accepts: finite and above zero. *)
Definition valid_limit (l : JsNum) : Prop :=
  num_isFinite l = true /\ num_le_nat l 0 = false.

End EffectVocabulary.
Export EffectVocabulary.

(** ** Further examples *)

Module Fixtures.
Import Demo.

Definition page (ids : list string) (next : JVal) : JObject :=
  [("items", JArr (map (fun id => JObj [("id", JStr id)]) ids));
   ("response_metadata", JObj [("next_cursor", next)])].

(** A listing of five items in three pages. *)
Definition client_pages : SlackListsClient :=
  mkClient (fun _ params =>
    match prop params "cursor" with
    | JUndefined => Returned (page ["R1"; "R2"] (JStr "c2"))
    | JStr "c2" => Returned (page ["R3"; "R4"] (JStr "c3"))
    | _ => Returned (page ["R5"] (JStr EmptyString))
    end).

(** The limit option ["3"] with the number 3 as its conversion. *)
Definition num_3 : JsNum := 0x4008000000000000.
Definition limit_builtins : Builtins := {|
  path_join := String.concat "/";
  path_dirname := demo_dirname;
  JSON_stringify := demo_stringify;
  JSON_parse := demo_parse;
  js_Number := fun v =>
    match v with
    | JStr "3" => num_3
    | _ => 0x7FF8000000000000
    end;
  js_String := fun _ => "[object Object]";
  js_trim := fun s => s
|}.

(** a cache file that does not parse *)
Definition world_corrupt : World := world_of [(canonical_path, File "{not json")].

Definition config_file : string := "/cfg/slack-lists-cli/config.json".
Definition demo_config : CliConfig :=
  mkCliConfig (Some "C-general") (Some {[ "L1" := Some "C-list" ]}).
Definition demo_parse_config (raw : string) : option CliConfig :=
  if String.eqb raw "{config}" then Some demo_config else None.
Definition demo_config_env : ConfigEnv := mkConfigEnv demo_env None None None.
Definition world_config : World := world_of [(config_file, File "{config}")].

#[global] Instance demo_view : IndexView := {| index_schema := fun index => index |}.

Definition evidence_item : JObject :=
  [("item",
    JObj [("fields",
           JArr [JObj [("column_id", JStr "Col01"); ("select", JArr [JStr "open"])];
                 JObj [("column_id", JStr "Col05"); ("link", JArr [])];
                 JNull;
                 JObj [("column_id", JStr "Col06"); ("attachment", JUndefined)]])])].

End Fixtures.

(** * Properties *)

Local Open Scope list_scope.

(** ** Merging schemas *)

Module SchemaFacts.

Lemma has_column_app id (a b : list Column) :
  has_column id (a ++ b) = has_column id a || has_column id b.
Proof. unfold has_column. apply existsb_app. Qed.

Lemma has_column_elem (c : Column) (cols : list Column) :
  c ∈ cols -> has_column (col_id c) cols = true.
Proof.
  intros Hin. unfold has_column. apply existsb_exists.
  exists c. split; [by apply list_elem_of_In | apply String.eqb_refl].
Qed.

Lemma find_column_app_l id (a b : list Column) c :
  find_column id a = Some c -> find_column id (a ++ b) = Some c.
Proof.
  unfold find_column. induction a as [|x a IH]; simpl; [discriminate|].
  destruct (String.eqb (col_id x) id); auto.
Qed.

Lemma find_column_app_r id (a b : list Column) :
  has_column id a = false -> find_column id (a ++ b) = find_column id b.
Proof.
  unfold find_column, has_column. induction a as [|x a IH]; simpl; [done|].
  destruct (String.eqb (col_id x) id); simpl; [discriminate | auto].
Qed.

(** The fold of the merge appends exactly the fresh columns. *)
Lemma fold_add_missing (cand acc : list Column) :
  fold_left add_missing cand acc = acc ++ fresh_columns acc cand.
Proof.
  revert acc. induction cand as [|c rest IH]; intros acc; simpl.
  - by rewrite app_nil_r.
  - unfold add_missing at 2. destruct (has_column (col_id c) acc).
    + apply IH.
    + rewrite IH, <- app_assoc. reflexivity.
Qed.

Lemma fresh_columns_elem (cand acc : list Column) c :
  c ∈ fresh_columns acc cand ->
  c ∈ cand /\ has_column (col_id c) acc = false.
Proof.
  revert acc. induction cand as [|x rest IH]; intros acc; simpl.
  - intros Hin. by apply not_elem_of_nil in Hin.
  - destruct (has_column (col_id x) acc) eqn:Hx.
    + intros Hin. destruct (IH _ Hin) as [H1 H2]. split; [by right | done].
    + intros Hin. apply elem_of_cons in Hin as [-> | Hin].
      * split; [by left | done].
      * destruct (IH _ Hin) as [H1 H2]. split; [by right|].
        rewrite has_column_app in H2. by apply orb_false_elim in H2 as [? _].
Qed.

Lemma fresh_columns_has id (cand acc : list Column) :
  has_column id (fresh_columns acc cand)
  = negb (has_column id acc) && has_column id cand.
Proof.
  revert acc. induction cand as [|x rest IH]; intros acc; simpl.
  - by rewrite andb_false_r.
  - destruct (has_column (col_id x) acc) eqn:Hx.
    + rewrite IH. destruct (String.eqb_spec (col_id x) id) as [<- | Hne]; simpl.
      * by rewrite Hx.
      * reflexivity.
    + simpl. rewrite IH, has_column_app. simpl.
      destruct (String.eqb_spec (col_id x) id) as [<- | Hne]; simpl.
      * by rewrite Hx.
      * by rewrite orb_false_r.
Qed.

Lemma fresh_columns_find id (cand acc : list Column) :
  has_column id acc = false ->
  find_column id (fresh_columns acc cand) = find_column id cand.
Proof.
  revert acc. induction cand as [|x rest IH]; intros acc Hacc; simpl; [done|].
  unfold find_column in *.
  destruct (has_column (col_id x) acc) eqn:Hx; simpl;
    destruct (String.eqb_spec (col_id x) id) as [Heq | Hne]; try done.
  - congruence.
  - by apply IH.
  - apply IH. rewrite has_column_app, Hacc. simpl.
    apply String.eqb_neq in Hne. by rewrite Hne.
Qed.

Lemma fresh_columns_sublist (cand acc : list Column) :
  sublist (fresh_columns acc cand) cand.
Proof.
  revert acc. induction cand as [|x rest IH]; intros acc; simpl.
  - constructor.
  - destruct (has_column (col_id x) acc).
    + apply sublist_cons, IH.
    + apply sublist_skip, IH.
Qed.

Lemma fresh_columns_NoDup (cand acc : list Column) :
  NoDup (col_id <$> fresh_columns acc cand).
Proof.
  revert acc. induction cand as [|x rest IH]; intros acc; simpl.
  - constructor.
  - destruct (has_column (col_id x) acc); [apply IH|].
    simpl. constructor; [|apply IH].
    intros Hin. apply list_elem_of_fmap in Hin as (c & Hid & Hc).
    apply fresh_columns_elem in Hc as [_ Hc].
    rewrite has_column_app, <- Hid in Hc. simpl in Hc.
    rewrite String.eqb_refl in Hc. simpl in Hc.
    by rewrite orb_true_r in Hc.
Qed.

(** Columns already recorded contribute nothing. *)
Lemma fresh_columns_skip (known rest acc : list Column) :
  (forall c, c ∈ known -> has_column (col_id c) acc = true) ->
  fresh_columns acc (known ++ rest) = fresh_columns acc rest.
Proof.
  induction known as [|x known IH]; intros Hall; simpl; [done|].
  rewrite (Hall x) by (by left). apply IH. intros c Hc. apply Hall. by right.
Qed.

Lemma fresh_columns_fresh (cand acc : list Column) :
  fresh_columns acc (fresh_columns acc cand) = fresh_columns acc cand.
Proof.
  revert acc. induction cand as [|x rest IH]; intros acc; simpl; [done|].
  destruct (has_column (col_id x) acc) eqn:Hx; [apply IH|].
  simpl. rewrite Hx. f_equal. apply IH.
Qed.

Lemma merge_columns (existing candidate : ListSchema) :
  columns (mergeSchemas (Some existing) candidate)
  = columns existing ++ fresh_columns (columns existing) (columns candidate).
Proof. simpl. apply fold_add_missing. Qed.

(** C2.  The merge of an existing schema and a candidate is the union of
    their columns by id: an id is in the merge exactly when it is in one
    of the two; a column id of the existing schema keeps the existing
    definition (type and options included) whatever the candidate says
    about that id; the columns of the merge are the existing columns, in
    their order, followed by candidate columns only, in the candidate's
    order, one for each id that only the candidate has. *)
Theorem mergeSchemas_union_existing_wins (existing candidate : ListSchema) :
  let merged := mergeSchemas (Some existing) candidate in
  (forall id,
     has_column id (columns merged)
     = has_column id (columns existing) || has_column id (columns candidate)) /\
  (forall id c,
     find_column id (columns existing) = Some c ->
     find_column id (columns merged) = Some c) /\
  (forall id,
     has_column id (columns existing) = false ->
     find_column id (columns merged) = find_column id (columns candidate)) /\
  exists appended,
    columns merged = columns existing ++ appended /\
    sublist appended (columns candidate) /\
    NoDup (col_id <$> appended) /\
    (forall c, c ∈ appended -> has_column (col_id c) (columns existing) = false) /\
    (forall c, c ∈ columns candidate ->
       has_column (col_id c) (columns existing) = false ->
       has_column (col_id c) appended = true).
Proof.
  intros merged. subst merged. rewrite merge_columns.
  repeat split.
  - intros id. rewrite has_column_app, fresh_columns_has.
    by destruct (has_column id (columns existing)).
  - intros id c Hc. by apply find_column_app_l.
  - intros id Hid. rewrite find_column_app_r by done.
    by apply fresh_columns_find.
  - exists (fresh_columns (columns existing) (columns candidate)).
    repeat split.
    + apply fresh_columns_sublist.
    + apply fresh_columns_NoDup.
    + intros c Hc. by apply fresh_columns_elem in Hc as [_ ?].
    + intros c Hc Hnew. rewrite fresh_columns_has, Hnew. simpl.
      by apply has_column_elem.
Qed.

(** A candidate that redefines the type of a recorded column does not
    change it, and its new column goes to the end. *)
Example merge_conflict :
  mergeSchemas (Some Demo.schema_confirmed) Demo.schema_candidate = Demo.schema_full.
Proof. reflexivity. Qed.

(** C9.  Merging the result of a merge into the same existing schema again
    changes nothing: merge(A, merge(A, B)) = merge(A, B). *)
Theorem mergeSchemas_idempotent (A B : ListSchema) :
  mergeSchemas (Some A) (mergeSchemas (Some A) B) = mergeSchemas (Some A) B.
Proof.
  unfold mergeSchemas at 1 3. f_equal. rewrite merge_columns.
  rewrite !fold_add_missing. f_equal.
  rewrite fresh_columns_skip by (intros c Hc; by apply has_column_elem).
  apply fresh_columns_fresh.
Qed.

End SchemaFacts.

(** ** The schema cache *)

Module CacheFacts.
Section Facts.
Context `{Builtins}.

Lemma emit_with_events ev w : emit ev w = with_events w [ev].
Proof. reflexivity. Qed.

Lemma with_events_app w a b :
  with_events (with_events w a) b = with_events w (a ++ b).
Proof. unfold with_events. simpl. by rewrite <- app_assoc. Qed.

Lemma with_events_nil w : with_events w [] = w.
Proof. destruct w. unfold with_events. simpl. by rewrite app_nil_r. Qed.

Lemma is_enoent_enoent path : is_enoent (enoent path) = true.
Proof. reflexivity. Qed.

(** [loadCachedSchema], run: it only reads. *)
Lemma loadCachedSchema_run env listId w :
  loadCachedSchema env listId w
  = (load_result env listId w, with_events w (load_events env listId w)).
Proof.
  unfold loadCachedSchema, load_result, load_events, missing, read_schema, found,
    try_catch, bind, fs_readFile, parse_schema, ret, throw, emit, with_events.
  simpl.
  destruct (w_files w !! getSchemaCachePath env listId) as [[raw|e]|] eqn:Hc; simpl.
  - destruct (JSON_parse raw); reflexivity.
  - destruct (is_enoent e) eqn:He; simpl; [|reflexivity].
    destruct (w_files w !! legacySchemaCachePath env listId) as [[raw'|e']|]; simpl;
      rewrite <- ?app_assoc; simpl.
    + destruct (JSON_parse raw'); reflexivity.
    + destruct (is_enoent e'); reflexivity.
    + reflexivity.
  - destruct (w_files w !! legacySchemaCachePath env listId) as [[raw'|e']|]; simpl;
      rewrite <- ?app_assoc; simpl.
    + destruct (JSON_parse raw'); reflexivity.
    + destruct (is_enoent e'); reflexivity.
    + reflexivity.
Qed.

(** [saveSchemaCache], run. *)
Lemma saveSchemaCache_ok env listId schema w :
  writable env listId w ->
  saveSchemaCache env listId schema w
  = (Returned tt,
     with_events (with_file w (getSchemaCachePath env listId) (JSON_stringify schema))
       (save_events env listId schema)).
Proof.
  intros [Hmk Hwr].
  unfold saveSchemaCache, bind, fs_mkdir, fs_writeFile. rewrite Hmk. simpl.
  rewrite Hwr. unfold emit, with_events, with_file, save_events. simpl.
  by rewrite <- app_assoc.
Qed.

Lemma saveSchemaCache_mkdir_fails env listId schema w e :
  w_mkdir_fail w !! path_dirname (getSchemaCachePath env listId) = Some e ->
  saveSchemaCache env listId schema w
  = (Thrown e, with_events w [EvMkdir (path_dirname (getSchemaCachePath env listId))]).
Proof.
  intros Hmk. unfold saveSchemaCache, bind, fs_mkdir. by rewrite Hmk.
Qed.

Lemma saveSchemaCache_write_fails env listId schema w e :
  w_mkdir_fail w !! path_dirname (getSchemaCachePath env listId) = None ->
  w_write_fail w !! getSchemaCachePath env listId = Some e ->
  saveSchemaCache env listId schema w
  = (Thrown e, with_events w (save_events env listId schema)).
Proof.
  intros Hmk Hwr. unfold saveSchemaCache, bind, fs_mkdir, fs_writeFile.
  rewrite Hmk. simpl. rewrite Hwr.
  unfold emit, with_events, save_events. simpl. by rewrite <- app_assoc.
Qed.

(** A save either succeeds or throws what [mkdir] or [writeFile] threw;
    a handler never sees anything else. *)
Lemma saveSchemaCache_cases env listId schema w :
  (writable env listId w /\
   saveSchemaCache env listId schema w
   = (Returned tt,
      with_events (with_file w (getSchemaCachePath env listId) (JSON_stringify schema))
        (save_events env listId schema))) \/
  (exists e w',
     saveSchemaCache env listId schema w = (Thrown e, w') /\
     w_files w' = w_files w /\
     (w_mkdir_fail w !! path_dirname (getSchemaCachePath env listId) = Some e \/
      w_write_fail w !! getSchemaCachePath env listId = Some e)).
Proof.
  destruct (w_mkdir_fail w !! path_dirname (getSchemaCachePath env listId)) as [e|] eqn:Hmk.
  - right. eexists _, _. split; [by apply saveSchemaCache_mkdir_fails|]. auto.
  - destruct (w_write_fail w !! getSchemaCachePath env listId) as [e|] eqn:Hwr.
    + right. eexists _, _. split; [by apply saveSchemaCache_write_fails|]. auto.
    + left. split; [done|]. by apply saveSchemaCache_ok.
Qed.

(** [updateSchemaCache], run, when the load finds [cached] and the cache
    can be written. *)
Lemma updateSchemaCache_ok env listId candidate w cached :
  load_result env listId w = Returned cached ->
  writable env listId w ->
  updateSchemaCache env listId candidate w
  = (Returned (mergeSchemas cached candidate),
     with_events
       (with_file w (getSchemaCachePath env listId)
          (JSON_stringify (mergeSchemas cached candidate)))
       (load_events env listId w ++ save_events env listId (mergeSchemas cached candidate))).
Proof.
  intros Hload Hw. unfold updateSchemaCache, bind.
  rewrite loadCachedSchema_run, Hload.
  rewrite saveSchemaCache_ok by exact Hw.
  unfold ret, with_events, with_file. simpl. by rewrite <- app_assoc.
Qed.


(** C5, as the code has it.  When a schema is found only at the legacy
    cache path, loading it returns that schema and writes nothing: the
    files are unchanged, the canonical path is still absent, and a
    subsequent load reads the canonical path and then the legacy path
    again.  The schema reaches the canonical path when
    [updateSchemaCache] next runs (load from the legacy path, merge,
    save to the canonical path); a load after that reads the merged
    schema from the canonical path alone. *)
Theorem legacy_schema_upgraded_on_update env listId w schema :
  let canonical := getSchemaCachePath env listId in
  let legacy := legacySchemaCachePath env listId in
  missing w canonical = true ->
  read_schema w legacy = Returned schema ->
  let w1 := (loadCachedSchema env listId w).2 in
  (loadCachedSchema env listId w).1 = Returned (Some schema) /\
  w_files w1 = w_files w /\
  w_trace w1 = w_trace w ++ [EvReadFile canonical; EvReadFile legacy] /\
  missing w1 canonical = true /\
  loadCachedSchema env listId w1
  = (Returned (Some schema), with_events w1 [EvReadFile canonical; EvReadFile legacy]) /\
  (forall candidate,
     writable env listId w ->
     let merged := mergeSchemas (Some schema) candidate in
     let w2 := (updateSchemaCache env listId candidate w1).2 in
     (updateSchemaCache env listId candidate w1).1 = Returned merged /\
     w_files w2 !! canonical = Some (File (JSON_stringify merged)) /\
     (JSON_parse (JSON_stringify merged) = Some merged ->
      loadCachedSchema env listId w2
      = (Returned (Some merged), with_events w2 [EvReadFile canonical]))).
Proof.
  intros canonical legacy Hmiss Hleg w1.
  assert (Hlegacy_there : missing w legacy = false).
  { unfold missing. unfold read_schema in Hleg.
    destruct (w_files w !! legacy) as [[raw|e]|]; [done | | done].
    discriminate Hleg. }
  assert (Hload : forall w0, w_files w0 = w_files w ->
            load_result env listId w0 = Returned (Some schema) /\
            load_events env listId w0 = [EvReadFile canonical; EvReadFile legacy]).
  { intros w0 Hfiles. unfold load_result, load_events, missing, read_schema in *.
    fold canonical legacy. rewrite Hfiles, Hmiss, Hlegacy_there, Hleg. done. }
  destruct (Hload w eq_refl) as [Hres Hevs].
  subst w1. rewrite loadCachedSchema_run, Hres, Hevs. simpl.
  destruct (Hload (with_events w [EvReadFile canonical; EvReadFile legacy]) eq_refl)
    as [Hres1 Hevs1].
  repeat split; try done.
  - rewrite loadCachedSchema_run, Hres1, Hevs1. reflexivity.
  - rewrite (updateSchemaCache_ok _ _ _ _ (Some schema)); done.
  - rewrite (updateSchemaCache_ok _ _ _ _ (Some schema)) by done.
    simpl. apply lookup_insert_eq.
  - intros Hround.
    rewrite (updateSchemaCache_ok _ _ _ _ (Some schema)) by done.
    rewrite loadCachedSchema_run.
    unfold load_result, load_events, missing, read_schema. fold canonical. simpl.
    rewrite lookup_insert_eq, Hround. reflexivity.
Qed.

End Facts.

Import Demo.


(** Loading the schema of the legacy path leaves the canonical path
    absent. *)
Lemma legacy_load_does_not_upgrade : ~ legacy_load_upgrades.
Proof.
  intros Hclaim.
  destruct (Hclaim demo_builtins demo_env "L1" world_legacy schema_confirmed)
    as (raw & Hfile & _); [vm_compute; reflexivity .. |].
  vm_compute in Hfile. discriminate Hfile.
Qed.

Lemma legacy_schema_upgraded_on_update_witness :
  (loadCachedSchema demo_env "L1" world_legacy).1 = Returned (Some schema_confirmed) /\
  w_files (loadCachedSchema demo_env "L1" world_legacy).2 !! canonical_path = None /\
  (updateSchemaCache demo_env "L1" schema_inferred
     (loadCachedSchema demo_env "L1" world_legacy).2).1
  = Returned (mergeSchemas (Some schema_confirmed) schema_inferred).
Proof.
  destruct (legacy_schema_upgraded_on_update demo_env "L1" world_legacy schema_confirmed)
    as (Hload & Hfiles & _ & _ & _ & Hupdate); [vm_compute; reflexivity .. |].
  split; [exact Hload|]. split; [rewrite Hfiles; vm_compute; reflexivity|].
  destruct (Hupdate schema_inferred) as (Hres & _).
  - split; vm_compute; reflexivity.
  - exact Hres.
Defined.

End CacheFacts.

(** ** The schema resolver *)

Module ResolverFacts.
Section Facts.
Context `{Builtins} `{SchemaLib}.


Lemma cache_hit_run env client listId schemaPath w cached :
  truthy_str (resolveSchemaPath env schemaPath) = false ->
  load_result env listId w = Returned (Some cached) ->
  resolveSchemaIndex env client listId schemaPath false w
  = (Returned (Some (buildSchemaIndex cached)),
     with_events w (load_events env listId w)).
Proof.
  intros Hpath Hload. unfold resolveSchemaIndex. rewrite Hpath. simpl.
  unfold bind. rewrite CacheFacts.loadCachedSchema_run, Hload. reflexivity.
Qed.


Lemma resolve_after_cache env client listId schemaPath refreshCache w w1 :
  cache_tier_passed env listId schemaPath refreshCache w w1 ->
  resolveSchemaIndex env client listId schemaPath refreshCache w
  = remote_tiers env client listId w1.
Proof.
  intros [Hpath Hcache]. unfold resolveSchemaIndex. rewrite Hpath.
  destruct refreshCache; simpl.
  - subst w1. reflexivity.
  - destruct Hcache as [Hload ->]. unfold bind at 1.
    rewrite CacheFacts.loadCachedSchema_run, Hload. reflexivity.
Qed.

Lemma describe_block_unavailable env client listId w :
  describe_unavailable client listId ->
  describe_block env client listId w
  = (Returned Fallthrough, with_events w [describe_call listId]).
Proof.
  unfold describe_unavailable, describe_answer, describe_block, try_catch, bind, call.
  destruct (respond client "slackLists.info" [("list_id", JStr listId)]) as [result|e];
    intros ->; reflexivity.
Qed.



Lemma slack_error_other_fatal e :
  slack_error_other e = true -> not_unknown_method e = true.
Proof. unfold slack_error_other. by intros [_ ?]%andb_prop. Qed.

Lemma item_info_block_throws env client listId id w e :
  detail_answer client listId id = Thrown e ->
  item_info_block env client listId id w
  = (if slack_error_other e then Thrown e else Returned Fallthrough,
     with_events w [detail_call listId id]).
Proof.
  unfold detail_answer, item_info_block, try_catch, bind, call. intros ->.
  destruct (slack_error_other e); reflexivity.
Qed.

Lemma item_info_block_no_metadata env client listId id w infoResult :
  detail_answer client listId id = Returned infoResult ->
  truthy (opt_get (prop infoResult "list") "list_metadata") = false ->
  item_info_block env client listId id w
  = (Returned Fallthrough, with_events w [detail_call listId id]).
Proof.
  unfold detail_answer, item_info_block, try_catch, bind, call. intros -> ->.
  reflexivity.
Qed.



Lemma infer_block_zero env listId items w inferred :
  inferSchemaFromItems listId items = Returned inferred ->
  columns inferred = [] ->
  infer_block env listId items w = (Returned (Return None), w).
Proof.
  intros Hinf Hzero. unfold infer_block, bind, lift. rewrite Hinf, Hzero. reflexivity.
Qed.

Lemma infer_block_columns env listId items w inferred :
  inferSchemaFromItems listId items = Returned inferred ->
  columns inferred <> [] ->
  infer_block env listId items w
  = match updateSchemaCache env listId inferred w with
    | (Returned merged, w') => (Returned (Return (Some (buildSchemaIndex merged))), w')
    | (Thrown e, w') => (Thrown e, w')
    end.
Proof.
  intros Hinf Hsome. unfold infer_block, bind, lift. rewrite Hinf.
  destruct (columns inferred) as [|c cols]; [done|]. simpl.
  destruct (updateSchemaCache env listId inferred w) as [[merged|e] w']; reflexivity.
Qed.

Lemma sample_block_run env client listId w itemsResult :
  list_answer client listId = Returned itemsResult ->
  sample_block env client listId w
  = match (if truthy (first_item_id itemsResult)
           then item_info_block env client listId (first_item_id itemsResult)
           else ret Fallthrough) (with_events w [list_call listId]) with
    | (Returned (Return r), w4) => (Returned (Return r), w4)
    | (Returned Fallthrough, w4) =>
        sample_handler (infer_block env listId (items_of itemsResult) w4)
    | (Thrown e, w4) => sample_handler (Thrown e, w4)
    end.
Proof.
  unfold list_answer, first_item_id. intros Hans.
  unfold sample_block, try_catch, bind at 1, call. rewrite Hans.
  rewrite CacheFacts.emit_with_events. unfold bind at 1, list_call.
  destruct ((if truthy (opt_get (index0 (items_of itemsResult)) "id")
             then item_info_block env client listId
                    (opt_get (index0 (items_of itemsResult)) "id")
             else ret Fallthrough) _)
    as [[[r|]|e] w4]; simpl; unfold throw, ret; try reflexivity.
  - destruct (infer_block env listId (items_of itemsResult) w4) as [[[r5|]|e5] w5];
      simpl; try reflexivity.
    destruct (not_unknown_method e5); reflexivity.
  - destruct (not_unknown_method e); reflexivity.
Qed.

Lemma remote_tiers_sampled env client listId w1 itemsResult :
  describe_unavailable client listId ->
  list_answer client listId = Returned itemsResult ->
  remote_tiers env client listId w1
  = match (if truthy (first_item_id itemsResult)
           then item_info_block env client listId (first_item_id itemsResult)
           else ret Fallthrough)
          (with_events w1 [describe_call listId; list_call listId]) with
    | (Returned (Return r), w4) => (Returned r, w4)
    | (Returned Fallthrough, w4) =>
        after_inference (infer_block env listId (items_of itemsResult) w4)
    | (Thrown e, w4) => after_inference (Thrown e, w4)
    end.
Proof.
  intros Hdesc Hlist. unfold remote_tiers, bind at 1.
  rewrite describe_block_unavailable by exact Hdesc.
  unfold bind. rewrite (sample_block_run _ _ _ _ itemsResult) by exact Hlist.
  rewrite CacheFacts.with_events_app. simpl.
  destruct ((if truthy (first_item_id itemsResult)
             then item_info_block env client listId (first_item_id itemsResult)
             else ret Fallthrough)
            (with_events w1 [describe_call listId; list_call listId]))
    as [[[r|]|e] w4]; simpl; try reflexivity.
  - destruct (infer_block env listId (items_of itemsResult) w4) as [[[r5|]|e5] w5];
      simpl; try reflexivity.
    destruct (not_unknown_method e5); reflexivity.
  - destruct (not_unknown_method e); reflexivity.
Qed.

Lemma resolve_sampled env client listId schemaPath refreshCache w w3 itemsResult :
  sampled env client listId schemaPath refreshCache w w3 itemsResult ->
  resolveSchemaIndex env client listId schemaPath refreshCache w
  = match (if truthy (first_item_id itemsResult)
           then item_info_block env client listId (first_item_id itemsResult)
           else ret Fallthrough) w3 with
    | (Returned (Return r), w4) => (Returned r, w4)
    | (Returned Fallthrough, w4) =>
        after_inference (infer_block env listId (items_of itemsResult) w4)
    | (Thrown e, w4) => after_inference (Thrown e, w4)
    end.
Proof.
  intros (w1 & Hcache & Hdesc & Hlist & ->).
  rewrite (resolve_after_cache _ _ _ _ _ _ w1) by exact Hcache.
  by apply remote_tiers_sampled.
Qed.

Lemma resolve_reaches_inference env client listId schemaPath refreshCache
    w w3 w4 itemsResult :
  sampled env client listId schemaPath refreshCache w w3 itemsResult ->
  detail_unavailable env client listId itemsResult w3 w4 ->
  resolveSchemaIndex env client listId schemaPath refreshCache w
  = after_inference (infer_block env listId (items_of itemsResult) w4).
Proof.
  intros Hs Hd. rewrite (resolve_sampled _ _ _ _ _ _ w3 itemsResult) by exact Hs.
  unfold detail_unavailable in Hd. by rewrite Hd.
Qed.





(** C3, as the code has it.  When the item-detail call of tier 4 fails:
    a failure whose Slack error code is [unknown_method], and likewise a
    failure that carries no Slack error code at all, is caught and the
    resolver goes on to the inference tier; a failure that carries any
    other Slack error code is thrown to the caller of the resolver
    unchanged, and nothing happens after the failed call. *)
Theorem detail_failure_handling env client listId schemaPath refreshCache
    w w3 itemsResult e :
  sampled env client listId schemaPath refreshCache w w3 itemsResult ->
  truthy (first_item_id itemsResult) = true ->
  detail_answer client listId (first_item_id itemsResult) = Thrown e ->
  let w4 := with_events w3 [detail_call listId (first_item_id itemsResult)] in
  let run := resolveSchemaIndex env client listId schemaPath refreshCache w in
  (err_slack e = Some "unknown_method" ->
     run = after_inference (infer_block env listId (items_of itemsResult) w4)) /\
  (truthy_str (err_slack e) = false ->
     run = after_inference (infer_block env listId (items_of itemsResult) w4)) /\
  (forall code,
     err_slack e = Some code -> code <> EmptyString -> code <> "unknown_method" ->
     run = (Thrown e, w4)).
Proof.
  intros Hs Hid Hans w4 run. subst w4 run.
  rewrite (resolve_sampled _ _ _ _ _ _ w3 itemsResult) by exact Hs.
  rewrite Hid, (item_info_block_throws _ _ _ _ _ e) by exact Hans.
  split; [|split].
  - intros Hcode.
    assert (slack_error_other e = false) as ->; [|reflexivity].
    unfold slack_error_other, not_unknown_method. rewrite Hcode. reflexivity.
  - intros Hnone.
    assert (slack_error_other e = false) as ->; [|reflexivity].
    unfold slack_error_other. by rewrite Hnone.
  - intros code Hcode Hne Hother.
    assert (Hfatal : slack_error_other e = true).
    { unfold slack_error_other, not_unknown_method. rewrite Hcode.
      cbv beta iota delta [truthy_str].
      apply String.eqb_neq in Hne, Hother. by rewrite Hne, Hother. }
    rewrite Hfatal. unfold after_inference.
    by rewrite (slack_error_other_fatal _ Hfatal).
Qed.

(** C7.  Once the resolver is at its inference tier: an inferred schema
    with no column makes it return [undefined], with no error and no
    access to the cache; an inferred schema with columns is handed to
    [updateSchemaCache], and the index of the merged schema that comes
    back is returned.  When the cache then holds [cached] and can be
    written, the merged schema is the merge of [cached] and the inferred
    schema and it is what the canonical cache file holds afterwards. *)
Theorem inference_tier_outcome env client listId schemaPath refreshCache
    w w3 w4 itemsResult inferred :
  sampled env client listId schemaPath refreshCache w w3 itemsResult ->
  detail_unavailable env client listId itemsResult w3 w4 ->
  inferSchemaFromItems listId (items_of itemsResult) = Returned inferred ->
  let run := resolveSchemaIndex env client listId schemaPath refreshCache w in
  (columns inferred = [] -> run = (Returned None, w4)) /\
  (columns inferred <> [] ->
     (forall merged w5,
        updateSchemaCache env listId inferred w4 = (Returned merged, w5) ->
        run = (Returned (Some (buildSchemaIndex merged)), w5)) /\
     (forall cached,
        load_result env listId w4 = Returned cached ->
        writable env listId w4 ->
        run.1 = Returned (Some (buildSchemaIndex (mergeSchemas cached inferred))) /\
        w_files run.2 !! getSchemaCachePath env listId
        = Some (File (JSON_stringify (mergeSchemas cached inferred))))).
Proof.
  intros Hs Hd Hinf run. subst run.
  rewrite (resolve_reaches_inference _ _ _ _ _ _ w3 w4 itemsResult) by done.
  split.
  - intros Hzero. by rewrite (infer_block_zero _ _ _ _ inferred).
  - intros Hcols. rewrite (infer_block_columns _ _ _ _ inferred) by done. split.
    + intros merged w5 ->. reflexivity.
    + intros cached Hload Hw.
      rewrite (CacheFacts.updateSchemaCache_ok _ _ _ _ cached) by done.
      simpl. split; [reflexivity|]. apply lookup_insert_eq.
Qed.

End Facts.

Import Demo.

Lemma demo_cache_passed :
  cache_tier_passed demo_env "L1" None false world_empty world_cache_passed.
Proof. split; [|split]; vm_compute; reflexivity. Qed.

Lemma demo_sampled e item :
  sampled demo_env (client_detail_fails e item) "L1" None false
    world_empty world_sampled (items_response item).
Proof.
  exists world_cache_passed.
  split; [exact demo_cache_passed|]. split; [|split]; vm_compute; reflexivity.
Qed.




(** Discovery end to end: nothing cached, a service without the describe
    method and one sample item.  The resolver infers the two columns and
    saves them; the next call answers from the cache with one file read
    and no remote call. *)
Example discovery_then_cache_hit :
  let client := client_detail_fails unknown_method item_sample in
  let first := resolveSchemaIndex demo_env client "L1" None false world_empty in
  first.1 = Returned (Some schema_inferred) /\
  resolveSchemaIndex demo_env client "L1" None false first.2
  = (Returned (Some schema_inferred),
     with_events first.2 [EvReadFile canonical_path]).
Proof. split; vm_compute; reflexivity. Qed.

(** A network failure of the item-detail call is not thrown: the resolver
    infers a schema and returns it. *)
Lemma detail_network_failure_swallowed : ~ detail_failure_fatal_unless_unsupported.
Proof.
  intros Hclaim.
  specialize (Hclaim demo_builtins demo_lib demo_env
                (client_detail_fails network_down item_sample) "L1" None false
                world_empty world_sampled (items_response item_sample) network_down
                (demo_sampled _ _)).
  assert (Hrun : (resolveSchemaIndex demo_env
                    (client_detail_fails network_down item_sample) "L1" None false
                    world_empty).1 = Thrown network_down).
  { apply Hclaim; [reflexivity | reflexivity | discriminate]. }
  vm_compute in Hrun. discriminate Hrun.
Qed.

Lemma detail_failure_handling_witness :
  (resolveSchemaIndex demo_env (client_detail_fails unknown_method item_sample)
     "L1" None false world_empty).1 = Returned (Some schema_inferred) /\
  (resolveSchemaIndex demo_env (client_detail_fails network_down item_sample)
     "L1" None false world_empty).1 = Returned (Some schema_inferred) /\
  resolveSchemaIndex demo_env (client_detail_fails not_authed item_sample)
    "L1" None false world_empty = (Thrown not_authed, world_detailed).
Proof.
  split; [|split].
  - destruct (detail_failure_handling demo_env
                (client_detail_fails unknown_method item_sample) "L1" None false
                world_empty world_sampled (items_response item_sample) unknown_method)
      as (Hrun & _ & _); [apply demo_sampled | reflexivity | reflexivity |].
    rewrite Hrun; vm_compute; reflexivity.
  - destruct (detail_failure_handling demo_env
                (client_detail_fails network_down item_sample) "L1" None false
                world_empty world_sampled (items_response item_sample) network_down)
      as (_ & Hrun & _); [apply demo_sampled | reflexivity | reflexivity |].
    rewrite Hrun; vm_compute; reflexivity.
  - destruct (detail_failure_handling demo_env
                (client_detail_fails not_authed item_sample) "L1" None false
                world_empty world_sampled (items_response item_sample) not_authed)
      as (_ & _ & Hrun); [apply demo_sampled | reflexivity | reflexivity |].
    apply (Hrun "not_authed"); [reflexivity | discriminate | discriminate].
Defined.

Lemma inference_tier_outcome_witness :
  resolveSchemaIndex demo_env (client_detail_fails unknown_method item_bare)
    "L1" None false world_empty = (Returned None, world_detailed) /\
  (resolveSchemaIndex demo_env (client_detail_fails unknown_method item_sample)
     "L1" None false world_empty).1 = Returned (Some schema_inferred).
Proof.
  split.
  - destruct (inference_tier_outcome demo_env
                (client_detail_fails unknown_method item_bare) "L1" None false
                world_empty world_sampled world_detailed (items_response item_bare)
                (mkSchema "L1" [])) as (Hzero & _).
    + apply demo_sampled.
    + vm_compute. reflexivity.
    + reflexivity.
    + apply Hzero. reflexivity.
  - destruct (inference_tier_outcome demo_env
                (client_detail_fails unknown_method item_sample) "L1" None false
                world_empty world_sampled world_detailed (items_response item_sample)
                schema_inferred) as (_ & Hsome).
    + apply demo_sampled.
    + vm_compute. reflexivity.
    + reflexivity.
    + destruct (Hsome ltac:(discriminate)) as (_ & Hmerged).
      destruct (Hmerged None) as (Hrun & _).
      * vm_compute. reflexivity.
      * split; vm_compute; reflexivity.
      * exact Hrun.
Defined.

End ResolverFacts.

(** ** Field extraction *)

Module ExtractFacts.
Section Facts.
Context `{Builtins}.








End Facts.

Import Demo.



End ExtractFacts.

(** ** Cache failures: swallowed after item reads, thrown elsewhere *)

Module ItemsFacts.
Section Facts.
Context `{Builtins} `{SchemaLib}.

Lemma swallow_run (c : M unit) w : swallow c w = (Returned tt, (c w).2).
Proof.
  unfold swallow, try_catch. by destruct (c w) as [[[]|e] w'].
Qed.







End Facts.

Import Demo.



End ItemsFacts.

(** * Further properties *)

(** ** The schema cache, continued *)

Module CacheExtra.
Section Facts.
Context `{Builtins}.

(** X1.  A schema that has been saved is the schema the next load
    returns, read from the canonical path alone, whatever the canonical
    and legacy paths held before (for a schema that [JSON.parse] reads
    back from its [JSON.stringify]). *)
Theorem saved_schema_is_loaded env listId schema w :
  writable env listId w ->
  JSON_parse (JSON_stringify schema) = Some schema ->
  let w1 := (saveSchemaCache env listId schema w).2 in
  (saveSchemaCache env listId schema w).1 = Returned tt /\
  loadCachedSchema env listId w1
  = (Returned (Some schema), with_events w1 [EvReadFile (getSchemaCachePath env listId)]).
Proof.
  intros Hw Hround w1. subst w1.
  rewrite CacheFacts.saveSchemaCache_ok by exact Hw. simpl. split; [reflexivity|].
  rewrite CacheFacts.loadCachedSchema_run.
  unfold load_result, load_events, missing, read_schema. simpl.
  rewrite lookup_insert_eq, Hround. reflexivity.
Qed.


(** X3.  [updateSchemaCache] writes exactly what it returns: when it
    returns a schema, that schema is the merge of what the load found and
    the candidate, and the canonical file holds its serialization.  When
    the load fails, the update throws the failure of the load after the
    reads of the load alone: no directory is made and no file written.
    In particular a canonical file that does not parse is left as it is
    and the update throws the [SyntaxError]. *)
Theorem updateSchemaCache_writes_what_it_returns env listId candidate w :
  let canonical := getSchemaCachePath env listId in
  let run := updateSchemaCache env listId candidate w in
  (forall merged, run.1 = Returned merged ->
     exists cached,
       load_result env listId w = Returned cached /\
       merged = mergeSchemas cached candidate /\
       w_files run.2 !! canonical = Some (File (JSON_stringify merged))) /\
  (forall e, load_result env listId w = Thrown e ->
     run = (Thrown e, with_events w (load_events env listId w))) /\
  (forall raw, w_files w !! canonical = Some (File raw) -> JSON_parse raw = None ->
     run = (Thrown syntax_error, with_events w [EvReadFile canonical])).
Proof.
  intros canonical run. subst canonical run.
  assert (Hfail : forall e, load_result env listId w = Thrown e ->
            updateSchemaCache env listId candidate w
            = (Thrown e, with_events w (load_events env listId w))).
  { intros e Hload. unfold updateSchemaCache, bind.
    by rewrite CacheFacts.loadCachedSchema_run, Hload. }
  split; [|split].
  - intros merged. unfold updateSchemaCache, bind.
    rewrite CacheFacts.loadCachedSchema_run.
    destruct (load_result env listId w) as [cached|e]; [|discriminate].
    destruct (CacheFacts.saveSchemaCache_cases env listId (mergeSchemas cached candidate)
                (with_events w (load_events env listId w)))
      as [[_ ->] | (e & w' & -> & _)]; simpl; [|discriminate].
    intros [= <-]. exists cached. split; [done|]. split; [done|].
    apply lookup_insert_eq.
  - exact Hfail.
  - intros raw Hfile Hparse.
    assert (Hmiss : missing w (getSchemaCachePath env listId) = false).
    { unfold missing. by rewrite Hfile. }
    rewrite (Hfail syntax_error).
    + unfold load_events. by rewrite Hmiss.
    + unfold load_result, read_schema. by rewrite Hmiss, Hfile, Hparse.
Qed.

End Facts.

Import Demo Fixtures.

Lemma saved_schema_is_loaded_witness :
  (loadCachedSchema demo_env "L1"
     (saveSchemaCache demo_env "L1" schema_full world_legacy).2).1
  = Returned (Some schema_full).
Proof.
  destruct (saved_schema_is_loaded demo_env "L1" schema_full world_legacy)
    as [_ Hload].
  - split; vm_compute; reflexivity.
  - vm_compute. reflexivity.
  - rewrite Hload. reflexivity.
Defined.


Lemma updateSchemaCache_writes_what_it_returns_witness :
  updateSchemaCache demo_env "L1" schema_inferred world_corrupt
  = (Thrown syntax_error, with_events world_corrupt [EvReadFile canonical_path]) /\
  w_files (updateSchemaCache demo_env "L1" schema_inferred world_legacy).2 !! canonical_path
  = Some (File "{confirmed+inferred}").
Proof.
  split.
  - destruct (updateSchemaCache_writes_what_it_returns demo_env "L1" schema_inferred
                world_corrupt) as (_ & _ & Hcorrupt).
    apply (Hcorrupt "{not json"); vm_compute; reflexivity.
  - destruct (updateSchemaCache_writes_what_it_returns demo_env "L1" schema_inferred
                world_legacy) as (Hret & _).
    destruct (Hret (mergeSchemas (Some schema_confirmed) schema_inferred))
      as (cached & _ & _ & Hfile); [vm_compute; reflexivity|].
    exact Hfile.
Defined.

End CacheExtra.

(** ** Tokens, the memoized configuration and the default channel *)

Module ConfigExtra.

Lemma truthy_str_some (o : option string) :
  truthy_str o = true -> exists v, o = Some v /\ v <> EmptyString.
Proof.
  destruct o as [v|]; simpl; [|discriminate].
  intros Hv. exists v. split; [done|]. intros ->. discriminate Hv.
Qed.

Lemma truthy_str_nonempty (v : string) :
  v <> EmptyString -> truthy_str (Some v) = true.
Proof. intros Hv. simpl. apply String.eqb_neq in Hv. by rewrite Hv. Qed.

(** X4.  [resolveToken] never returns an empty token: it returns a
    non-empty string, or it throws the "no token" error, and it throws
    only when the option carries no token and the chain
    [SLACK_TOKEN ?? SLACK_BOT_TOKEN ?? SLACK_USER_TOKEN] gives nothing or
    the empty string. *)
Theorem resolveToken_never_empty (env : TokenEnv) (options : TokenOptions) :
  match resolveToken env options with
  | Returned token => token <> EmptyString
  | Thrown e =>
      e = no_token_error /\
      truthy_str (opt_token options) = false /\
      truthy_str (coalesce (SLACK_TOKEN env)
                    (coalesce (SLACK_BOT_TOKEN env) (SLACK_USER_TOKEN env))) = false
  end.
Proof.
  unfold resolveToken.
  destruct (truthy_str (opt_token options)) eqn:Hopt.
  { apply truthy_str_some in Hopt as (v & -> & Hv). exact Hv. }
  destruct (opt_asUser options &&
            truthy_str (coalesce (SLACK_USER_TOKEN env) (SLACK_TOKEN env))) eqn:Huser.
  { apply andb_prop in Huser as [_ Huser].
    apply truthy_str_some in Huser as (v & -> & Hv). exact Hv. }
  destruct (truthy_str (coalesce (SLACK_TOKEN env)
                          (coalesce (SLACK_BOT_TOKEN env) (SLACK_USER_TOKEN env))))
    eqn:Htoken; simpl.
  - apply truthy_str_some in Htoken as (v & -> & Hv). exact Hv.
  - done.
Qed.

(** X5.  The precedence of [resolveToken].  A non-empty token of the
    options wins over every variable.  Without one, and with [asUser], a
    non-empty [SLACK_USER_TOKEN] wins over [SLACK_TOKEN].  Without
    [asUser], [SLACK_TOKEN] decides whenever it is set, even to the empty
    string, in which case the call throws although a bot or user token
    may be set; the bot token is used only when [SLACK_TOKEN] is unset,
    and the user token only when both are unset. *)
Theorem resolveToken_precedence (env : TokenEnv) (options : TokenOptions) :
  (forall t, opt_token options = Some t -> t <> EmptyString ->
     resolveToken env options = Returned t) /\
  (truthy_str (opt_token options) = false ->
     (forall u, opt_asUser options = true ->
        SLACK_USER_TOKEN env = Some u -> u <> EmptyString ->
        resolveToken env options = Returned u) /\
     (forall t, opt_asUser options = false -> SLACK_TOKEN env = Some t ->
        resolveToken env options
        = if String.eqb t EmptyString then Thrown no_token_error else Returned t) /\
     (forall b, opt_asUser options = false -> SLACK_TOKEN env = None ->
        SLACK_BOT_TOKEN env = Some b -> b <> EmptyString ->
        resolveToken env options = Returned b) /\
     (forall u, opt_asUser options = false -> SLACK_TOKEN env = None ->
        SLACK_BOT_TOKEN env = None -> SLACK_USER_TOKEN env = Some u ->
        u <> EmptyString ->
        resolveToken env options = Returned u)).
Proof.
  split.
  - intros t Ht Hne. unfold resolveToken. rewrite Ht.
    by rewrite (truthy_str_nonempty t Hne).
  - intros Hopt. unfold resolveToken. rewrite Hopt.
    split; [|split; [|split]].
    + intros u -> -> Hne. simpl. apply String.eqb_neq in Hne. by rewrite Hne.
    + intros t -> ->. simpl. by destruct (String.eqb t EmptyString).
    + intros b -> -> -> Hne. simpl. apply String.eqb_neq in Hne. by rewrite Hne.
    + intros u -> -> -> -> Hne. simpl. apply String.eqb_neq in Hne. by rewrite Hne.
Qed.

Section Facts.
Context `{Builtins}.
Variable JSON_parse_config : string -> option CliConfig.

(** X6.  [loadConfig] never throws and reads the configuration file at
    most once: a call returns a configuration (or [null]) and leaves it
    in the memo cell; every later call returns that same value without
    any event, whatever the files hold by then.  No call writes a file. *)
Theorem loadConfig_reads_once (env : ConfigEnv) (memo : Memo) (w : World) :
  exists config,
    (loadConfig JSON_parse_config env memo w).1 = Returned (config, Some config) /\
    w_files (loadConfig JSON_parse_config env memo w).2 = w_files w /\
    (forall known, memo = Some known ->
       config = known /\ (loadConfig JSON_parse_config env memo w).2 = w) /\
    (memo = None ->
       w_trace (loadConfig JSON_parse_config env memo w).2 = w_trace w \/
       w_trace (loadConfig JSON_parse_config env memo w).2
       = w_trace w ++ [EvReadFile (resolveConfigPath env)]) /\
    (forall w2,
       loadConfig JSON_parse_config env (Some config) w2
       = (Returned (config, Some config), w2)).
Proof.
  assert (Hlater : forall (config : option CliConfig) w2,
            loadConfig JSON_parse_config env (Some config) w2
            = (Returned (config, Some config), w2)) by reflexivity.
  assert (Hcases :
            (exists known, memo = Some known /\
               loadConfig JSON_parse_config env memo w
               = (Returned (known, Some known), w)) \/
            (memo = None /\ exists config w' (grown : bool),
               loadConfig JSON_parse_config env memo w
               = (Returned (config, Some config), w') /\
               w_files w' = w_files w /\
               w_trace w' = if grown
                            then w_trace w ++ [EvReadFile (resolveConfigPath env)]
                            else w_trace w)).
  { unfold loadConfig. destruct memo as [known|]; [left; eauto|]. right.
    split; [reflexivity|].
    destruct (negb (truthy (JStr (resolveConfigPath env)))).
    - exists None, w, false. done.
    - unfold try_catch, bind, fs_readFile, parse_config, ret, throw.
      destruct (w_files w !! resolveConfigPath env) as [[raw|e]|].
      + destruct (JSON_parse_config raw) as [config|].
        * by exists (Some config), (emit (EvReadFile (resolveConfigPath env)) w), true.
        * by exists None, (emit (EvReadFile (resolveConfigPath env)) w), true.
      + by exists None, (emit (EvReadFile (resolveConfigPath env)) w), true.
      + by exists None, (emit (EvReadFile (resolveConfigPath env)) w), true. }
  destruct Hcases as [(known & -> & ->) | (-> & config & w' & grown & -> & Hfiles & Htrace)].
  - exists known. split; [reflexivity|]. split; [reflexivity|].
    split; [by intros k [= <-]|]. split; [discriminate | apply Hlater].
  - exists config. split; [reflexivity|]. split; [exact Hfiles|].
    split; [discriminate|]. split; [|apply Hlater].
    intros _. simpl. rewrite Htrace. destruct grown; auto.
Qed.


Variable path_resolve : string -> string.
Variable pathToFileURL : string -> string.

(** X8.  [normalizeTargetUrl] returns an input that has a scheme as it
    is, and puts [https://] before an input that has none and does not
    start with [~], [/] or [.]; the result then has a scheme.  When file
    URLs have a scheme, as those of [pathToFileURL] do, every result has
    one and normalizing twice is normalizing once. *)
Theorem normalizeTargetUrl_gives_scheme (home input : string) :
  let normalize := normalizeTargetUrl path_resolve pathToFileURL home in
  (has_scheme input = true -> normalize input = input) /\
  (has_scheme input = false ->
   startsWith input "~" = false -> startsWith input "/" = false ->
   startsWith input "." = false ->
   normalize input = ("https://" ++ input)%string /\
   has_scheme (normalize input) = true) /\
  ((forall p, has_scheme (pathToFileURL p) = true) ->
   has_scheme (normalize input) = true /\
   normalize (normalize input) = normalize input).
Proof.
  intros normalize. subst normalize.
  assert (Hhttps : forall rest, has_scheme ("https://" ++ rest)%string = true).
  { intros rest. by destruct rest. }
  assert (Hfixed : forall url, has_scheme url = true ->
            normalizeTargetUrl path_resolve pathToFileURL home url = url).
  { intros url Hurl. unfold normalizeTargetUrl. by rewrite Hurl. }
  split; [apply Hfixed|]. split.
  - intros Hno Ht Hs Hd. unfold normalizeTargetUrl.
    rewrite Hno, Ht, Hs, Hd. simpl. split; [reflexivity | apply Hhttps].
  - intros Hfile.
    assert (Hscheme : has_scheme
              (normalizeTargetUrl path_resolve pathToFileURL home input) = true).
    { unfold normalizeTargetUrl.
      destruct (has_scheme input) eqn:Hin; [exact Hin|].
      destruct (startsWith input "~"); [apply Hfile|].
      destruct (startsWith input "/" || startsWith input "."); [apply Hfile|].
      apply Hhttps. }
    split; [exact Hscheme | by apply Hfixed].
Qed.

End Facts.

Import Demo Fixtures.

Lemma resolveToken_precedence_witness :
  resolveToken (mkTokenEnv (Some "xoxb-env") (Some "xoxb-bot") None)
    (mkTokenOptions (Some "xoxp-cli") false) = Returned "xoxp-cli" /\
  resolveToken (mkTokenEnv (Some EmptyString) (Some "xoxb-bot") (Some "xoxp-user"))
    (mkTokenOptions None false) = Thrown no_token_error /\
  resolveToken (mkTokenEnv (Some "xoxb-env") None (Some "xoxp-user"))
    (mkTokenOptions None true) = Returned "xoxp-user".
Proof.
  split; [|split].
  - destruct (resolveToken_precedence (mkTokenEnv (Some "xoxb-env") (Some "xoxb-bot") None)
                (mkTokenOptions (Some "xoxp-cli") false)) as [Hcli _].
    apply Hcli; [reflexivity | discriminate].
  - destruct (resolveToken_precedence
                (mkTokenEnv (Some EmptyString) (Some "xoxb-bot") (Some "xoxp-user"))
                (mkTokenOptions None false)) as [_ Henv].
    destruct (Henv eq_refl) as (_ & Htoken & _).
    exact (Htoken EmptyString eq_refl eq_refl).
  - destruct (resolveToken_precedence (mkTokenEnv (Some "xoxb-env") None (Some "xoxp-user"))
                (mkTokenOptions None true)) as [_ Henv].
    destruct (Henv eq_refl) as (Huser & _).
    apply Huser; [reflexivity | reflexivity | discriminate].
Defined.

Lemma loadConfig_reads_once_witness :
  exists config,
    (loadConfig demo_parse_config demo_config_env None world_config).1
    = Returned (config, Some config) /\
    loadConfig demo_parse_config demo_config_env (Some config) world_empty
    = (Returned (config, Some config), world_empty).
Proof.
  destruct (loadConfig_reads_once demo_parse_config demo_config_env None world_config)
    as (config & Hfirst & _ & _ & _ & Hlater).
  exists config. split; [exact Hfirst | apply Hlater].
Defined.


Lemma normalizeTargetUrl_gives_scheme_witness :
  let file_url := fun p => ("file://" ++ p)%string in
  normalizeTargetUrl (fun p => p) file_url "/home/u" "example.com/page"
  = "https://example.com/page" /\
  normalizeTargetUrl (fun p => p) file_url "/home/u" "http://localhost:3000"
  = "http://localhost:3000" /\
  has_scheme (normalizeTargetUrl (fun p => p) file_url "/home/u" "~/shot.html") = true.
Proof.
  intros file_url. split; [|split].
  - destruct (normalizeTargetUrl_gives_scheme (fun p => p) file_url "/home/u"
                "example.com/page") as (_ & Hbare & _).
    destruct Hbare as [Hurl _]; [reflexivity .. |]. exact Hurl.
  - destruct (normalizeTargetUrl_gives_scheme (fun p => p) file_url "/home/u"
                "http://localhost:3000") as (Hsame & _).
    apply Hsame. reflexivity.
  - destruct (normalizeTargetUrl_gives_scheme (fun p => p) file_url "/home/u"
                "~/shot.html") as (_ & _ & Hfile).
    destruct Hfile as [Hscheme _]; [|exact Hscheme].
    intros p. by destruct p.
Defined.

End ConfigExtra.

(** ** What the resolver does to the cache and to the service *)

Module ResolverExtra.
Section Logic.

Lemma effects_same path w : effects path [] false w w.
Proof. unfold effects. by rewrite app_nil_r. Qed.

Lemma effects_events path w evs : effects path evs false w (with_events w evs).
Proof. by unfold effects, with_events. Qed.

Lemma effects_then path e1 e2 b1 b2 w w1 w2 :
  effects path e1 b1 w w1 -> effects path e2 b2 w1 w2 ->
  effects path (e1 ++ e2) (b1 || b2) w w2.
Proof.
  intros (Hmk1 & Hwr1 & Htr1 & Hf1) (Hmk2 & Hwr2 & Htr2 & Hf2).
  unfold effects. rewrite Hmk2, Hwr2, Htr2, Htr1, app_assoc.
  repeat split; try done.
  destruct b1, b2; simpl.
  - destruct Hf1 as [r1 Hf1]. destruct Hf2 as [r2 Hf2].
    exists r2. by rewrite Hf2, Hf1, insert_insert_eq.
  - destruct Hf1 as [r1 Hf1]. exists r1. by rewrite Hf2.
  - destruct Hf2 as [r2 Hf2]. exists r2. by rewrite Hf2, Hf1.
  - by rewrite Hf2.
Qed.

Lemma calls_of_app e1 e2 : calls_of (e1 ++ e2) = calls_of e1 ++ calls_of e2.
Proof. unfold calls_of. apply List.filter_app. Qed.

Context {A B : Type}.

Lemma runs_ret path (a : A) final : runs path (ret a) no_calls final.
Proof.
  intros w. exists [], false. split; [apply effects_same|]. by split.
Qed.

Lemma runs_throw path e (final : A -> bool) : runs path (throw e) no_calls final.
Proof.
  intros w. exists [], false. split; [apply effects_same|]. by split.
Qed.

Lemma runs_lift path (o : Outcome A) final : runs path (lift o) no_calls final.
Proof.
  intros w. exists [], false. split; [apply effects_same|]. by split.
Qed.

Lemma runs_weaken path (c : M A) (calls calls' : list Event -> Prop) final :
  runs path c calls final -> (forall l, calls l -> calls' l) -> runs path c calls' final.
Proof.
  intros Hc Hsub w. destruct (Hc w) as (evs & wrote & He & Hcalls & Hw).
  exists evs, wrote. auto.
Qed.

(** Sequencing after a computation that writes nothing. *)
Lemma runs_bind path (c : M A) (k : A -> M B) calls1 calls2 final :
  runs path c calls1 never ->
  (forall a, runs path (k a) calls2 final) ->
  runs path (bind c k) (calls_seq calls1 calls2) final.
Proof.
  intros Hc Hk w. destruct (Hc w) as (e1 & b1 & He1 & Hc1 & Hw1).
  assert (b1 = false) as ->.
  { destruct b1; [|done]. destruct (Hw1 eq_refl) as (a & _ & Hnever). discriminate. }
  unfold bind. destruct (c w) as [[a|e] w1]; simpl in *.
  - destruct (Hk a w1) as (e2 & b2 & He2 & Hc2 & Hw2).
    exists (e1 ++ e2), b2. split; [apply (effects_then _ _ _ false b2 _ w1); done|].
    split; [|exact Hw2]. right. exists (calls_of e1), (calls_of e2).
    by rewrite calls_of_app.
  - exists e1, false. split; [done|]. split; [by left | done].
Qed.

(** A write followed by a [return]. *)
Lemma runs_bind_ret path (c : M A) (b : B) calls final :
  runs path c calls always -> final b = true ->
  runs path (bind c (fun _ => ret b)) calls final.
Proof.
  intros Hc Hb w. destruct (Hc w) as (e1 & b1 & He1 & Hc1 & Hw1).
  exists e1, b1. unfold bind, ret. destruct (c w) as [[a|e] w1]; simpl in *.
  - split; [done|]. split; [done|]. eauto.
  - split; [done|]. split; [done|]. intros Hb1.
    destruct (Hw1 Hb1) as (a & Habs & _). discriminate.
Qed.

Lemma runs_try path (c : M A) (h : JsError -> M A) calls final :
  runs path c calls final ->
  (forall e, runs path (h e) no_calls never) ->
  runs path (try_catch c h) calls final.
Proof.
  intros Hc Hh w. destruct (Hc w) as (e1 & b1 & He1 & Hc1 & Hw1).
  unfold try_catch. destruct (c w) as [[a|e] w1]; simpl in *.
  - exists e1, b1. auto.
  - destruct (Hh e w1) as (e2 & b2 & He2 & Hc2 & Hw2).
    assert (b2 = false) as ->.
    { destruct b2; [|done]. destruct (Hw2 eq_refl) as (a & _ & Hnever). discriminate. }
    assert (b1 = false) as ->.
    { destruct b1; [|done]. destruct (Hw1 eq_refl) as (a & Habs & _). discriminate. }
    exists (e1 ++ e2), false. split; [apply (effects_then _ _ _ false false _ w1); done|].
    split; [|done]. rewrite calls_of_app. unfold no_calls in Hc2.
    by rewrite Hc2, app_nil_r.
Qed.

(** Sequencing in general: after a write, the rest only returns. *)
Lemma runs_bind_written path (c : M A) (k : A -> M B) calls1 calls2 final1 final :
  runs path c calls1 final1 ->
  (forall a, final1 a = true -> exists b, k a = ret b /\ final b = true) ->
  (forall a, runs path (k a) calls2 final) ->
  runs path (bind c k) (calls_seq calls1 calls2) final.
Proof.
  intros Hc Hfinal Hk w. destruct (Hc w) as (e1 & b1 & He1 & Hc1 & Hw1).
  unfold bind. destruct b1.
  - destruct (Hw1 eq_refl) as (a & Hrun & Ha).
    destruct (c w) as [[a'|e] w1]; simpl in *; [|discriminate].
    injection Hrun as ->. destruct (Hfinal a Ha) as (b & -> & Hb).
    exists e1, true. unfold ret. simpl. split; [done|]. split; [by left | eauto].
  - destruct (c w) as [[a|e] w1]; simpl in *.
    + destruct (Hk a w1) as (e2 & b2 & He2 & Hc2 & Hw2).
      exists (e1 ++ e2), b2. split; [apply (effects_then _ _ _ false b2 _ w1); done|].
      split; [|exact Hw2]. right. exists (calls_of e1), (calls_of e2).
      by rewrite calls_of_app.
    + exists e1, false. split; [done|]. split; [by left | done].
Qed.

End Logic.

Section Facts.
Context `{Builtins} `{SchemaLib}.

Lemma calls_seq_quiet_r (calls : list Event -> Prop) l :
  calls_seq calls no_calls l -> calls l.
Proof.
  intros [Hl | (l1 & l2 & -> & Hl1 & ->)]; [done|]. by rewrite app_nil_r.
Qed.

Lemma calls_seq_quiet_l (calls : list Event -> Prop) l :
  calls_seq no_calls calls l -> l = [] \/ calls l.
Proof.
  intros [Hl | (l1 & l2 & -> & -> & Hl2)]; [by left | by right].
Qed.

Lemma runs_call path client method params :
  runs path (call client method params) (one_call (EvCall method params)) never.
Proof.
  intros w. exists [EvCall method params], false.
  split; [apply (effects_events path w)|]. by split.
Qed.

Lemma runs_readFile path p : runs path (fs_readFile p) no_calls never.
Proof.
  intros w. exists [EvReadFile p], false. split; [|by split].
  unfold fs_readFile. rewrite CacheFacts.emit_with_events.
  destruct (w_files w !! p) as [[raw|e]|]; apply effects_events.
Qed.

Lemma runs_mkdir path dir : runs path (fs_mkdir dir) no_calls never.
Proof.
  intros w. exists [EvMkdir dir], false. split; [|by split].
  unfold fs_mkdir. rewrite CacheFacts.emit_with_events.
  destruct (w_mkdir_fail w !! dir); apply effects_events.
Qed.

Lemma runs_writeFile path raw : runs path (fs_writeFile path raw) no_calls always.
Proof.
  intros w. unfold fs_writeFile.
  destruct (w_write_fail w !! path) as [e|].
  - exists [EvWriteFile path raw], false. split; [apply effects_events|]. by split.
  - exists [EvWriteFile path raw], true. split; [|split; [done | eauto]].
    unfold effects. simpl. eauto.
Qed.

Lemma runs_load env listId :
  runs (getSchemaCachePath env listId) (loadCachedSchema env listId) no_calls never.
Proof.
  intros w. rewrite CacheFacts.loadCachedSchema_run.
  exists (load_events env listId w), false. split; [apply effects_events|].
  split; [|done]. unfold load_events, no_calls.
  by destruct (missing w (getSchemaCachePath env listId)).
Qed.

Lemma runs_save env listId schema :
  runs (getSchemaCachePath env listId) (saveSchemaCache env listId schema)
    no_calls always.
Proof.
  unfold saveSchemaCache.
  eapply runs_weaken; [|apply calls_seq_quiet_r].
  eapply runs_bind; [apply runs_mkdir|]. intros _. apply runs_writeFile.
Qed.

Lemma runs_update env listId candidate :
  runs (getSchemaCachePath env listId) (updateSchemaCache env listId candidate)
    no_calls always.
Proof.
  unfold updateSchemaCache.
  eapply runs_weaken; [|apply calls_seq_quiet_r].
  eapply runs_bind; [apply runs_load|]. intros cached.
  apply runs_bind_ret; [apply runs_save | done].
Qed.

(** The save of a normalized schema, followed by the return of its index. *)
Lemma runs_persist env listId (normalized : Outcome ListSchema) :
  runs (getSchemaCachePath env listId)
    (let* schema := lift normalized in
     saveSchemaCache env listId schema ;;
     ret (Return (Some (buildSchemaIndex schema))))
    no_calls returns_index.
Proof.
  eapply runs_weaken; [|apply calls_seq_quiet_r].
  eapply runs_bind; [apply runs_lift|]. intros schema.
  apply runs_bind_ret; [apply runs_save | done].
Qed.

Lemma runs_handler path (swallowed : JsError -> bool) (e : JsError) :
  runs path (if swallowed e then throw e else ret (@Fallthrough (option SchemaIndex)))
    no_calls never.
Proof. destruct (swallowed e); [apply runs_throw | apply runs_ret]. Qed.

Lemma runs_describe env client listId :
  runs (getSchemaCachePath env listId) (describe_block env client listId)
    (one_call (describe_call listId)) returns_index.
Proof.
  unfold describe_block. apply runs_try; [|intros e; apply runs_handler].
  eapply runs_weaken; [|apply calls_seq_quiet_r].
  eapply runs_bind; [apply runs_call|]. intros result.
  destruct (truthy (prop result "ok")); [apply runs_persist | apply runs_ret].
Qed.

Lemma runs_item_info env client listId id :
  runs (getSchemaCachePath env listId) (item_info_block env client listId id)
    (one_call (detail_call listId id)) returns_index.
Proof.
  unfold item_info_block. apply runs_try; [|intros e; apply runs_handler].
  eapply runs_weaken; [|apply calls_seq_quiet_r].
  eapply runs_bind; [apply runs_call|]. intros result.
  destruct (truthy (opt_get (prop result "list") "list_metadata"));
    [apply runs_persist | apply runs_ret].
Qed.

Lemma runs_infer env listId items :
  runs (getSchemaCachePath env listId) (infer_block env listId items)
    no_calls returns_index.
Proof.
  unfold infer_block.
  eapply runs_weaken; [|apply calls_seq_quiet_r].
  eapply runs_bind; [apply runs_lift|]. intros inferred.
  destruct (length (columns inferred) =? 0)%nat; [apply runs_ret|].
  intros w. destruct (runs_update env listId inferred w) as (evs & wrote & He & Hc & Hw).
  exists evs, wrote. unfold bind, ret.
  destruct (updateSchemaCache env listId inferred w) as [[merged|e] w1]; simpl in *.
  - split; [done|]. split; [done|]. eauto.
  - split; [done|]. split; [done|]. intros Hwrote.
    destruct (Hw Hwrote) as (a & Habs & _). discriminate.
Qed.

Lemma runs_sample env client listId :
  runs (getSchemaCachePath env listId) (sample_block env client listId)
    (sample_calls listId) returns_index.
Proof.
  unfold sample_block. apply runs_try; [|intros e; apply runs_handler].
  eapply runs_weaken.
  { eapply runs_bind; [apply runs_call|]. intros itemsResult.
    eapply (runs_bind_written _ _ _
              (fun l => l = [] \/ exists id, l = [detail_call listId id])
              no_calls returns_index returns_index).
    - destruct (truthy (opt_get (index0 (items_of itemsResult)) "id")).
      + eapply runs_weaken; [apply runs_item_info|]. intros l ->. eauto.
      + eapply runs_weaken; [apply runs_ret|]. intros l ->. by left.
    - intros [[index|]|] Ha; try discriminate. eauto.
    - intros [r|]; [apply runs_ret | apply runs_infer]. }
  intros l Hl. unfold sample_calls, list_call.
  destruct Hl as [Hl | (l1 & l2 & -> & Hl1 & Hl2)];
    unfold one_call in *; subst; [by left|].
  apply calls_seq_quiet_r in Hl2. destruct Hl2 as [-> | (id & ->)]; [by left|].
  right. by exists id.
Qed.

Lemma runs_remote env client listId :
  runs (getSchemaCachePath env listId) (remote_tiers env client listId)
    (remote_calls listId) is_index.
Proof.
  unfold remote_tiers. eapply runs_weaken.
  { eapply (runs_bind_written _ _ _ (one_call (describe_call listId))
              (fun l => l = [] \/ sample_calls listId l) returns_index is_index);
      [apply runs_describe | |].
    - intros [[index|]|] Ha; try discriminate. eauto.
    - intros [r|].
      + eapply runs_weaken; [apply runs_ret|]. intros l Hl. left. exact Hl.
      + eapply runs_weaken.
        * eapply (runs_bind_written _ _ _ (sample_calls listId) no_calls
                    returns_index is_index); [apply runs_sample | |].
          -- intros [[index|]|] Ha; try discriminate. eauto.
          -- intros [r|]; apply runs_ret.
        * intros l Hl. right. by apply calls_seq_quiet_r in Hl. }
  intros l Hl. unfold remote_calls.
  destruct Hl as [Hl | (l1 & l2 & -> & Hl1 & Hl2)];
    unfold one_call in *; subst; [by left|].
  destruct Hl2 as [-> | [-> | (id & ->)]]; [by left | by right; left |].
  right. right. by exists id.
Qed.

Lemma runs_resolve env client listId schemaPath refreshCache :
  runs (getSchemaCachePath env listId)
    (resolveSchemaIndex env client listId schemaPath refreshCache)
    (resolve_calls listId) is_index.
Proof.
  unfold resolveSchemaIndex.
  destruct (truthy_str (resolveSchemaPath env schemaPath)).
  { eapply runs_weaken.
    - eapply runs_bind; [|intros schema; apply runs_ret].
      unfold loadSchemaFromFile.
      eapply runs_bind; [apply runs_readFile | intros raw; apply runs_lift].
    - intros l Hl. apply calls_seq_quiet_r, calls_seq_quiet_r in Hl. by left. }
  eapply runs_weaken.
  { eapply (runs_bind _ _ _ no_calls (resolve_calls listId)).
    - destruct (negb refreshCache); [apply runs_load | apply runs_ret].
    - intros [cached|].
      + eapply runs_weaken; [apply runs_ret|]. intros l Hl. left. exact Hl.
      + eapply runs_weaken; [apply runs_remote|]. intros l Hl. right. exact Hl. }
  intros l Hl. apply calls_seq_quiet_l in Hl as [-> | Hl]; [by left | exact Hl].
Qed.


(** X10.  The resolver makes at most three remote calls and always in the
    same order: the describe call, then the item listing, then the detail
    of one item.  Its remote calls are a prefix of that sequence; no call
    is made twice and none out of order. *)
Theorem resolver_call_order env client listId schemaPath refreshCache w :
  let run := resolveSchemaIndex env client listId schemaPath refreshCache w in
  exists evs,
    w_trace run.2 = w_trace w ++ evs /\
    (calls_of evs = [] \/
     calls_of evs = [describe_call listId] \/
     calls_of evs = [describe_call listId; list_call listId] \/
     exists id,
       calls_of evs = [describe_call listId; list_call listId; detail_call listId id]).
Proof.
  intros run. subst run.
  destruct (runs_resolve env client listId schemaPath refreshCache w)
    as (evs & wrote & (_ & _ & Htrace & _) & Hcalls & _).
  exists evs. split; [exact Htrace|].
  destruct Hcalls as [Hnone | [Hd | [Hl | Hi]]]; auto.
Qed.

End Facts.
End ResolverExtra.

(** ** The paginated listing *)

Module ListingExtra.

#[local] Arguments num_isFinite : simpl never.
#[local] Arguments num_isNaN : simpl never.
#[local] Arguments num_isZero : simpl never.
#[local] Arguments num_sign : simpl never.
#[local] Arguments num_le_nat : simpl never.
#[local] Arguments num_lt_nat : simpl never.
#[local] Arguments num_floor_abs : simpl never.
#[local] Arguments num_significand : simpl never.
#[local] Arguments num_scale : simpl never.
#[local] Arguments Z.pow : simpl never.
#[local] Arguments Z.mul : simpl never.
#[local] Arguments Z.of_nat : simpl never.
#[local] Arguments limit_reached : simpl never.

Lemma land_ones_63_52 n : Z.land n (Z.ones 63) = 0 -> num_mantissa n = 0.
Proof.
  intros Hz. unfold num_mantissa.
  change (Z.ones 52) with (Z.land (Z.ones 63) (Z.ones 52)).
  by rewrite Z.land_assoc, Hz.
Qed.

Lemma land_ones_63_exponent n : Z.land n (Z.ones 63) = 0 -> num_exponent n = 0.
Proof.
  intros Hz. unfold num_exponent.
  change 2047 with (Z.shiftr (Z.ones 63) 52).
  by rewrite <- Z.shiftr_land, Hz.
Qed.

Lemma num_significand_nonneg n : 0 <= num_significand n.
Proof.
  unfold num_significand, num_mantissa.
  pose proof (Z.land_nonneg n (Z.ones 52)) as [_ Hland].
  assert (0 <= Z.land n (Z.ones 52)) by (apply Hland; right; done).
  destruct (num_exponent n =? 0); lia.
Qed.

Lemma num_floor_abs_nonneg n : 0 <= num_floor_abs n.
Proof.
  unfold num_floor_abs. pose proof (num_significand_nonneg n).
  destruct (0 <=? num_scale n) eqn:Hs.
  - apply Z.leb_le in Hs. apply Z.mul_nonneg_nonneg; [done|]. by apply Z.pow_nonneg.
  - apply Z.leb_gt in Hs. apply Z.div_pos; [done|]. apply Z.pow_pos_nonneg; lia.
Qed.

(** A valid limit is a positive finite number. *)
Lemma valid_limit_shape l :
  valid_limit l ->
  num_isNaN l = false /\ num_sign l = false /\ truthy (JNum l) = true.
Proof.
  intros [Hfin Hle]. unfold num_le_nat in Hle.
  assert (Hnan : num_isNaN l = false).
  { unfold num_isNaN. unfold num_isFinite in Hfin.
    destruct (num_exponent l =? 2047); [discriminate | done]. }
  rewrite Hnan in Hle. destruct (num_sign l) eqn:Hsign; [discriminate|].
  rewrite Hfin in Hle. cbn [negb] in Hle.
  split; [done|]. split; [done|]. cbn [truthy]. rewrite Hnan, orb_false_r.
  unfold num_isZero. destruct (Z.land l (Z.ones 63) =? 0) eqn:Hz; [|done].
  apply Z.eqb_eq in Hz. exfalso.
  assert (Hsig : num_significand l = 0).
  { unfold num_significand.
    by rewrite (land_ones_63_exponent l Hz), (land_ones_63_52 l Hz). }
  rewrite Hsig in Hle. change (Z.of_nat 0) with 0 in Hle.
  rewrite Z.mul_0_l in Hle.
  destruct (0 <=? num_scale l); [discriminate|].
  rewrite Z.mul_0_l in Hle. discriminate.
Qed.

(** The comparisons of a valid limit with a length, through its integer
    part. *)
Lemma limit_le_floor l k :
  valid_limit l -> num_le_nat l k = true -> num_floor_abs l <= Z.of_nat k.
Proof.
  intros Hv Hle. destruct (valid_limit_shape l Hv) as (Hnan & Hsign & _).
  destruct Hv as [Hfin _]. unfold num_le_nat in Hle.
  rewrite Hnan, Hsign, Hfin in Hle. cbn [negb] in Hle. unfold num_floor_abs.
  destruct (0 <=? num_scale l) eqn:Hs.
  - by apply Z.leb_le in Hle.
  - apply Z.leb_le in Hle. apply Z.leb_gt in Hs.
    assert (0 < 2 ^ (- num_scale l)) by (apply Z.pow_pos_nonneg; lia).
    apply Z.div_le_upper_bound; lia.
Qed.

Lemma limit_not_lt_floor l k :
  valid_limit l -> num_lt_nat l k = false -> Z.of_nat k <= num_floor_abs l.
Proof.
  intros Hv Hlt. destruct (valid_limit_shape l Hv) as (Hnan & Hsign & _).
  destruct Hv as [Hfin _]. unfold num_lt_nat in Hlt.
  rewrite Hnan, Hsign, Hfin in Hlt. cbn [negb] in Hlt. unfold num_floor_abs.
  destruct (0 <=? num_scale l) eqn:Hs.
  - apply Z.ltb_ge in Hlt. exact Hlt.
  - apply Z.ltb_ge in Hlt. apply Z.leb_gt in Hs.
    assert (0 < 2 ^ (- num_scale l)) by (apply Z.pow_pos_nonneg; lia).
    apply Z.div_le_lower_bound; lia.
Qed.

Lemma limit_not_le_not_lt l k :
  valid_limit l -> num_le_nat l k = false -> num_lt_nat l k = false.
Proof.
  intros Hv Hle. destruct (valid_limit_shape l Hv) as (Hnan & Hsign & _).
  destruct Hv as [Hfin _]. unfold num_le_nat in Hle. unfold num_lt_nat.
  rewrite Hnan, Hsign, Hfin in *. cbn [negb] in *.
  destruct (0 <=? num_scale l).
  - apply Z.leb_gt in Hle. apply Z.ltb_ge. lia.
  - apply Z.leb_gt in Hle. apply Z.ltb_ge. lia.
Qed.

Lemma slice_to_valid {A} l (items : list A) :
  valid_limit l -> slice_to l items = take (Z.to_nat (num_floor_abs l)) items.
Proof.
  intros Hv. destruct (valid_limit_shape l Hv) as (Hnan & Hsign & _).
  destruct Hv as [Hfin _]. unfold slice_to. by rewrite Hnan, Hsign, Hfin.
Qed.

Section Facts.
Context `{Builtins}.

(** The outcome of the loop does not depend on the world. *)
Lemma fetch_loop_outcome fuel client listId archived limit items cursor w w' :
  (fetch_loop fuel client listId archived limit items cursor w).1
  = (fetch_loop fuel client listId archived limit items cursor w').1.
Proof.
  revert items cursor w w'.
  induction fuel as [|fuel IH]; intros items cursor w w'; simpl; [done|].
  unfold bind, call.
  destruct (respond client "slackLists.items.list" (list_params listId cursor archived))
    as [result|e]; [|done].
  destruct (limit_reached limit (items ++ items_of result)); [done|].
  destruct (truthy (opt_get (prop result "response_metadata") "next_cursor")); [|done].
  apply IH.
Qed.

(** The loop only adds items after those it has. *)
Lemma fetch_loop_extends fuel client listId archived limit items cursor w fetched :
  (fetch_loop fuel client listId archived limit items cursor w).1 = Returned (Some fetched) ->
  items `prefix_of` fetched.
Proof.
  revert items cursor w.
  induction fuel as [|fuel IH]; intros items cursor w; simpl; [discriminate|].
  unfold bind, call, ret.
  destruct (respond client "slackLists.items.list" (list_params listId cursor archived))
    as [result|e]; [|discriminate].
  assert (Hpre : items `prefix_of` items ++ items_of result) by (by apply prefix_app_r).
  destruct (limit_reached limit (items ++ items_of result)); cbn [fst].
  { intros [= <-]. exact Hpre. }
  destruct (truthy (opt_get (prop result "response_metadata") "next_cursor")); cbn [fst].
  - intros Hrun. etrans; [exact Hpre|]. by eapply IH.
  - intros [= <-]. exact Hpre.
Qed.

(** A loop with a limit against the loop without one, from the same
    state: what the limited loop fetched begins what the other fetched,
    and it is all of it unless the limit was reached. *)
Lemma fetch_loop_limited fuel fuel' client listId archived l items cursor w w' lim all :
  (fetch_loop fuel client listId archived (Some l) items cursor w).1 = Returned (Some lim) ->
  (fetch_loop fuel' client listId archived None items cursor w').1 = Returned (Some all) ->
  lim `prefix_of` all /\ (limit_reached (Some l) lim = true \/ lim = all).
Proof.
  revert fuel' items cursor w w'.
  induction fuel as [|fuel IH]; intros fuel' items cursor w w'; simpl; [discriminate|].
  destruct fuel' as [|fuel']; simpl; [discriminate|].
  unfold bind, call, ret.
  destruct (respond client "slackLists.items.list" (list_params listId cursor archived))
    as [result|e]; [|discriminate].
  destruct (limit_reached (Some l) (items ++ items_of result)) eqn:Hreached; cbn [fst].
  - intros [= <-].
    destruct (truthy (opt_get (prop result "response_metadata") "next_cursor")); cbn [fst].
    + intros Hall. split; [by eapply fetch_loop_extends|]. left. exact Hreached.
    + intros [= <-]. split; [done|]. by right.
  - destruct (truthy (opt_get (prop result "response_metadata") "next_cursor")); cbn [fst].
    + intros Hlim Hall. by eapply IH.
    + intros [= <-] [= <-]. split; [done|]. by right.
Qed.

(** X11.  A limit option that does not convert to a finite number above
    zero (a word, [0], a negative number, [Infinity]) makes
    [fetchAllItems] throw before any remote call: the world is
    unchanged. *)
Theorem fetchAllItems_rejects_bad_limit fuel client listId archived limitOption w :
  limitOption <> EmptyString ->
  num_isFinite (js_Number (JStr limitOption)) = false \/
  num_le_nat (js_Number (JStr limitOption)) 0 = true ->
  fetchAllItems fuel client listId archived (Some limitOption) w
  = (Thrown limit_error, w).
Proof.
  intros Hne Hbad. unfold fetchAllItems.
  rewrite (ConfigExtra.truthy_str_nonempty _ Hne).
  cbn [default to_Number]. change (id limitOption) with limitOption.
  assert (negb (num_isFinite (js_Number (JStr limitOption)))
          || num_le_nat (js_Number (JStr limitOption)) 0 = true) as ->; [|reflexivity].
  destruct Hbad as [-> | ->]; [reflexivity | apply orb_true_r].
Qed.

(** X12.  With a limit option, [fetchAllItems] never returns more items
    than the limit: the number of items it returns is at most the integer
    part of the limit. *)
Theorem fetchAllItems_respects_limit fuel client listId archived limitOption w items w' :
  limitOption <> EmptyString ->
  fetchAllItems fuel client listId archived (Some limitOption) w
  = (Returned (Some items), w') ->
  valid_limit (js_Number (JStr limitOption)) /\
  Z.of_nat (length items) <= num_floor_abs (js_Number (JStr limitOption)).
Proof.
  intros Hne. unfold fetchAllItems.
  rewrite (ConfigExtra.truthy_str_nonempty _ Hne).
  cbn [default to_Number]. change (id limitOption) with limitOption.
  set (l := js_Number (JStr limitOption)).
  destruct (num_isFinite l) eqn:Hfin; cbn [negb orb]; [|discriminate].
  destruct (num_le_nat l 0) eqn:Hzero; [discriminate|].
  assert (Hv : valid_limit l) by (by split).
  unfold bind, ret.
  destruct (fetch_loop fuel client listId archived (Some l) [] JUndefined w)
    as [[[fetched|]|e] w1]; try discriminate.
  destruct (valid_limit_shape l Hv) as (_ & _ & ->). cbn [andb].
  destruct (num_lt_nat l (length fetched)) eqn:Hlt.
  - intros [= <- _]. split; [exact Hv|]. rewrite (slice_to_valid l fetched Hv).
    rewrite length_take. pose proof (num_floor_abs_nonneg l). lia.
  - intros [= <- _]. split; [exact Hv|]. by apply limit_not_lt_floor.
Qed.

(** X13.  The listing with a limit returns the first items of the listing
    without one: whenever both end, the limited result is the unlimited
    result cut after as many items as the integer part of the limit. *)
Theorem fetchAllItems_limit_is_prefix fuel fuel' client listId archived limitOption
    w w' limited all wl wa :
  limitOption <> EmptyString ->
  fetchAllItems fuel client listId archived (Some limitOption) w
  = (Returned (Some limited), wl) ->
  fetchAllItems fuel' client listId archived None w' = (Returned (Some all), wa) ->
  limited = take (Z.to_nat (num_floor_abs (js_Number (JStr limitOption)))) all.
Proof.
  intros Hne. unfold fetchAllItems.
  rewrite (ConfigExtra.truthy_str_nonempty _ Hne).
  cbn [default to_Number truthy_str]. change (id limitOption) with limitOption.
  set (l := js_Number (JStr limitOption)).
  destruct (num_isFinite l) eqn:Hfin; cbn [negb orb]; [|discriminate].
  destruct (num_le_nat l 0) eqn:Hzero; [discriminate|].
  assert (Hv : valid_limit l) by (by split).
  unfold bind, ret.
  destruct (fetch_loop fuel client listId archived (Some l) [] JUndefined w)
    as [[[fetched|]|e] w1] eqn:Hlim; try discriminate.
  destruct (valid_limit_shape l Hv) as (_ & _ & Htruthy). rewrite Htruthy. cbn [andb].
  intros Hcut Hall.
  destruct (fetch_loop_limited fuel fuel' client listId archived l [] JUndefined
              w w' fetched all) as [Hprefix Hend].
  { by rewrite Hlim. }
  { by rewrite Hall. }
  pose proof (num_floor_abs_nonneg l) as Hnonneg.
  destruct Hprefix as [rest ->].
  assert (Hkeep : num_lt_nat l (length fetched) = false ->
            take (Z.to_nat (num_floor_abs l)) fetched = fetched).
  { intros Hlt. pose proof (limit_not_lt_floor l _ Hv Hlt).
    apply take_ge. lia. }
  assert (Hlimited : limited = take (Z.to_nat (num_floor_abs l)) fetched).
  { destruct (num_lt_nat l (length fetched)) eqn:Hlt.
    - injection Hcut as <-. by apply slice_to_valid.
    - injection Hcut as <-. by rewrite Hkeep. }
  rewrite Hlimited.
  destruct Hend as [Hreached | Hsame].
  - unfold limit_reached in Hreached. rewrite Htruthy in Hreached.
    cbn [andb] in Hreached.
    pose proof (limit_le_floor l _ Hv Hreached) as Hfloor.
    rewrite take_app_le by lia. reflexivity.
  - assert (rest = []) as ->.
    { apply (f_equal length) in Hsame. rewrite length_app in Hsame.
      destruct rest; [done | simpl in Hsame; lia]. }
    by rewrite app_nil_r.
Qed.

End Facts.

Import Demo Fixtures.

Lemma fetchAllItems_rejects_bad_limit_witness :
  @fetchAllItems limit_builtins 5 client_pages "L1" false (Some "many") world_empty
  = (Thrown limit_error, world_empty).
Proof.
  apply (@fetchAllItems_rejects_bad_limit limit_builtins);
    [discriminate | left; reflexivity].
Defined.

Lemma fetchAllItems_respects_limit_witness :
  Z.of_nat (length (map (fun id => JObj [("id", JStr id)]) ["R1"; "R2"; "R3"])) <= 3.
Proof.
  destruct (@fetchAllItems_respects_limit limit_builtins 5 client_pages "L1" false "3"
              world_empty (map (fun id => JObj [("id", JStr id)]) ["R1"; "R2"; "R3"])
              (@fetchAllItems limit_builtins 5 client_pages "L1" false (Some "3")
                 world_empty).2) as [_ Hbound].
  - discriminate.
  - vm_compute. reflexivity.
  - exact Hbound.
Defined.

Lemma fetchAllItems_limit_is_prefix_witness :
  map (fun id => JObj [("id", JStr id)]) ["R1"; "R2"; "R3"]
  = take 3 (map (fun id => JObj [("id", JStr id)]) ["R1"; "R2"; "R3"; "R4"; "R5"]).
Proof.
  apply (@fetchAllItems_limit_is_prefix limit_builtins 5 5 client_pages "L1" false "3"
           world_empty world_empty _ _
           (@fetchAllItems limit_builtins 5 client_pages "L1" false (Some "3")
              world_empty).2
           (@fetchAllItems limit_builtins 5 client_pages "L1" false None
              world_empty).2).
  - discriminate.
  - vm_compute. reflexivity.
  - vm_compute. reflexivity.
Defined.

End ListingExtra.

(** ** Failures of the remote tiers, and the schema path once more *)

Module ResolverFailures.
Section Facts.
Context `{Builtins} `{SchemaLib}.

(** X14.  When the describe tier fails with anything but
    [unknown_method], be it the call or the normalization of its answer,
    the resolver throws that failure at once: the describe call is its
    only remote call and nothing is saved. *)
Theorem describe_failure_is_fatal env client listId schemaPath refreshCache w w1 :
  cache_tier_passed env listId schemaPath refreshCache w w1 ->
  let run := resolveSchemaIndex env client listId schemaPath refreshCache w in
  (forall e,
     describe_answer client listId = Thrown e -> not_unknown_method e = true ->
     run = (Thrown e, with_events w1 [describe_call listId])) /\
  (forall result e,
     describe_answer client listId = Returned result ->
     truthy (prop result "ok") = true ->
     normalizeSchema result = Thrown e -> not_unknown_method e = true ->
     run = (Thrown e, with_events w1 [describe_call listId])).
Proof.
  intros Hcache run. subst run.
  rewrite (ResolverFacts.resolve_after_cache _ _ _ _ _ _ w1) by exact Hcache.
  unfold describe_answer, remote_tiers, bind at 1, describe_block, try_catch, bind, call, lift.
  split.
  - intros e -> ->. reflexivity.
  - intros result e -> -> -> ->. reflexivity.
Qed.

(** X15.  When the item listing fails: as [unknown_method], the resolver
    returns [undefined] without an error; with any other failure it
    throws that failure unchanged.  In both cases the describe call and
    the listing are its only remote calls: no item detail is asked for,
    nothing is inferred and the cache is not written. *)
Theorem listing_failure_handling env client listId schemaPath refreshCache w w1 e :
  cache_tier_passed env listId schemaPath refreshCache w w1 ->
  describe_unavailable client listId ->
  list_answer client listId = Thrown e ->
  resolveSchemaIndex env client listId schemaPath refreshCache w
  = (if not_unknown_method e then Thrown e else Returned None,
     with_events w1 [describe_call listId; list_call listId]).
Proof.
  intros Hcache Hdesc Hlist.
  rewrite (ResolverFacts.resolve_after_cache _ _ _ _ _ _ w1) by exact Hcache.
  unfold remote_tiers, bind at 1.
  rewrite ResolverFacts.describe_block_unavailable by exact Hdesc.
  unfold list_answer in Hlist.
  unfold bind at 1, sample_block, try_catch, bind, call. rewrite Hlist.
  rewrite CacheFacts.emit_with_events, CacheFacts.with_events_app.
  destruct (not_unknown_method e); reflexivity.
Qed.

(** X16.  An empty schema path switches the override off instead of
    naming a file: with the empty string as command-line path the value
    of [SLACK_LIST_SCHEMA_PATH] is not consulted, and an empty
    [SLACK_LIST_SCHEMA_PATH] counts as unset; the resolver then runs as
    it does with neither. *)
Theorem empty_schema_path_is_no_override env client listId refreshCache w :
  let bare := mkEnv (XDG_CONFIG_HOME env) (homedir env) None in
  resolveSchemaIndex env client listId (Some EmptyString) refreshCache w
  = resolveSchemaIndex bare client listId None refreshCache w /\
  (SLACK_LIST_SCHEMA_PATH env = Some EmptyString ->
   resolveSchemaIndex env client listId None refreshCache w
   = resolveSchemaIndex bare client listId None refreshCache w).
Proof.
  intros bare. split.
  - reflexivity.
  - intros Henv. unfold resolveSchemaIndex. simpl. rewrite Henv. reflexivity.
Qed.

End Facts.

Import Demo Fixtures.


Lemma describe_failure_is_fatal_witness :
  resolveSchemaIndex demo_env client_down "L1" None false world_empty
  = (Thrown not_authed, with_events world_cache_passed [describe_call "L1"]).
Proof.
  destruct (describe_failure_is_fatal demo_env client_down "L1" None false
              world_empty world_cache_passed ResolverFacts.demo_cache_passed)
    as [Hcall _].
  apply Hcall; reflexivity.
Defined.

Lemma listing_failure_handling_witness :
  resolveSchemaIndex demo_env
    (client_of (Thrown unknown_method) (Thrown unknown_method) (Thrown not_authed))
    "L1" None false world_empty
  = (Returned None, world_sampled) /\
  resolveSchemaIndex demo_env
    (client_of (Thrown unknown_method) (Thrown not_authed) (Thrown not_authed))
    "L1" None false world_empty
  = (Thrown not_authed, world_sampled).
Proof.
  split.
  - apply (listing_failure_handling demo_env
             (client_of (Thrown unknown_method) (Thrown unknown_method) (Thrown not_authed))
             "L1" None false world_empty world_cache_passed unknown_method
             ResolverFacts.demo_cache_passed); reflexivity.
  - apply (listing_failure_handling demo_env
             (client_of (Thrown unknown_method) (Thrown not_authed) (Thrown not_authed))
             "L1" None false world_empty world_cache_passed not_authed
             ResolverFacts.demo_cache_passed); reflexivity.
Defined.

Lemma empty_schema_path_is_no_override_witness :
  (resolveSchemaIndex (mkEnv (Some "/cfg") "/home/u" (Some EmptyString)) client_down
     "L1" None false world_canonical).1
  = Returned (Some schema_confirmed).
Proof.
  destruct (empty_schema_path_is_no_override
              (mkEnv (Some "/cfg") "/home/u" (Some EmptyString)) client_down
              "L1" false world_canonical) as [_ Henv].
  rewrite Henv; [vm_compute; reflexivity | reflexivity].
Defined.

End ResolverFailures.

(** ** Item fields, evidence, cache seeding and the schema command *)

Module ItemsExtra.

Lemma is_evidence_object field :
  is_evidence field = true ->
  exists props,
    field = JObj props /\
    (has_key "attachment" field || has_key "link" field ||
     has_key "reference" field || has_key "message" field) = true.
Proof.
  unfold is_evidence. destruct field as [| | | | | |props]; simpl; try discriminate.
  - by destruct b.
  - intros Hn. by destruct (negb (negb (num_isZero n || num_isNaN n))).
  - intros Hs. by destruct (negb (negb (String.eqb s EmptyString))).
  - eauto.
Qed.

(** X17.  [extractEvidence] returns, in their order, exactly the fields
    of the item that are objects having one of the keys [attachment],
    [link], [reference], [message]; the key counts by its presence,
    whatever its value; entries that are [null], arrays or primitives are
    dropped.  Without an item, or with fields that are not an array, the
    result is empty. *)
Theorem extractEvidence_keeps_evidence_fields (result : JObject) :
  (forall v, v ∈ extractEvidence result ->
     exists props fields,
       v = JObj props /\
       get (prop result "item") "fields" = JArr fields /\ v ∈ fields /\
       (has_key "attachment" v || has_key "link" v ||
        has_key "reference" v || has_key "message" v) = true) /\
  (forall fields,
     truthy (prop result "item") = true ->
     get (prop result "item") "fields" = JArr fields ->
     sublist (extractEvidence result) fields /\
     (forall props key,
        JObj props ∈ fields ->
        key ∈ ["attachment"; "link"; "reference"; "message"] ->
        has_key key (JObj props) = true ->
        JObj props ∈ extractEvidence result)) /\
  (truthy (prop result "item") = false \/
   is_array (get (prop result "item") "fields") = false ->
   extractEvidence result = []).
Proof.
  unfold extractEvidence. split; [|split].
  - intros v. destruct (truthy (prop result "item")); simpl;
      [|intros Hin; by apply not_elem_of_nil in Hin].
    destruct (get (prop result "item") "fields") as [| | | | |fields|];
      try (intros Hin; by apply not_elem_of_nil in Hin).
    intros Hin. apply list_elem_of_In, filter_In in Hin as [Hin Hev].
    apply is_evidence_object in Hev as (props & -> & Hkeys).
    exists props, fields. split; [done|]. split; [done|].
    split; [by apply list_elem_of_In | done].
  - intros fields -> ->. simpl. split.
    + clear. induction fields as [|x fields IH]; simpl; [constructor|].
      destruct (is_evidence x); [by apply sublist_skip | by apply sublist_cons].
    + intros props key Hin Hkey Hhas. apply list_elem_of_In, filter_In.
      split; [by apply list_elem_of_In|]. unfold is_evidence. simpl.
      set_unfold in Hkey. simpl in Hhas.
      destruct Hkey as [-> | [-> | [-> | [-> | []]]]]; rewrite Hhas;
        by rewrite ?orb_true_r.
  - intros [-> | Harr]; [done|]. destruct (negb (truthy (prop result "item"))); [done|].
    by destruct (get (prop result "item") "fields").
Qed.

(** X18.  The field that [findField] returns is the first one of the
    item with the column id: no field before it has that [column_id]. *)
Theorem findField_returns_first_match (item : JObject) (columnId : string) field :
  findField item columnId = Some field ->
  exists before after,
    prop item "fields" = JArr (before ++ JObj field :: after) /\
    prop field "column_id" = JStr columnId /\
    forall v, v ∈ before -> get v "column_id" <> JStr columnId.
Proof.
  unfold findField. destruct (prop item "fields") as [| | | | |fields|]; try discriminate.
  induction fields as [|v rest IH]; simpl; [discriminate|].
  destruct (is_object v &&
            match get v "column_id" with
            | JStr c => String.eqb c columnId
            | _ => false
            end) eqn:Htest.
  - intros [= <-]. apply andb_prop in Htest as [_ Hid].
    destruct v as [| | | | | |props]; try discriminate Hid. simpl in *.
    exists [], rest. split; [done|]. split.
    + unfold prop. destruct (assoc "column_id" props) as [| | | |c| |]; try discriminate.
      by apply String.eqb_eq in Hid as ->.
    + intros x Hx. by apply not_elem_of_nil in Hx.
  - intros Hrest. destruct (IH Hrest) as (before & after & [= ->] & Hid & Hbefore).
    exists (v :: before), after. split; [done|]. split; [done|].
    intros x Hx. apply elem_of_cons in Hx as [-> | Hx]; [|by apply Hbefore].
    intros Hcol. rewrite Hcol, String.eqb_refl, andb_true_r in Htest.
    destruct v as [| | | | | |props]; try discriminate Hcol. discriminate Htest.
Qed.

Section Facts.
Context `{Builtins} `{SchemaLib}.

(** X19.  A successful [syncSchemaCache] seeds the cache: when the
    inference and the update succeed, the canonical file holds the merge
    of what was cached and what was inferred, whether or not any column
    was inferred, and the next resolution without a schema path and
    without refresh returns the index of that schema after one file
    read, with no remote call. *)
Theorem syncSchemaCache_seeds_the_cache env client listId schemaPath items
    inferred cached w :
  inferSchemaFromItems listId items = Returned inferred ->
  load_result env listId w = Returned cached ->
  writable env listId w ->
  JSON_parse (JSON_stringify (mergeSchemas cached inferred))
  = Some (mergeSchemas cached inferred) ->
  truthy_str (resolveSchemaPath env schemaPath) = false ->
  let canonical := getSchemaCachePath env listId in
  let w1 := (syncSchemaCache env listId items w).2 in
  w_files w1 !! canonical = Some (File (JSON_stringify (mergeSchemas cached inferred))) /\
  resolveSchemaIndex env client listId schemaPath false w1
  = (Returned (Some (buildSchemaIndex (mergeSchemas cached inferred))),
     with_events w1 [EvReadFile canonical]).
Proof.
  intros Hinf Hload Hw Hround Hpath canonical w1. subst canonical w1.
  assert (Hsync : (syncSchemaCache env listId items w).2
                  = with_events
                      (with_file w (getSchemaCachePath env listId)
                         (JSON_stringify (mergeSchemas cached inferred)))
                      (load_events env listId w
                       ++ save_events env listId (mergeSchemas cached inferred))).
  { unfold syncSchemaCache. rewrite ItemsFacts.swallow_run.
    unfold bind, lift. rewrite Hinf.
    by rewrite (CacheFacts.updateSchemaCache_ok _ _ _ _ cached). }
  rewrite Hsync. split; [apply lookup_insert_eq|].
  rewrite (ResolverFacts.cache_hit_run _ _ _ _ _ (mergeSchemas cached inferred) Hpath).
  - unfold load_events, missing. simpl. by rewrite lookup_insert_eq.
  - unfold load_result, missing, read_schema. simpl.
    by rewrite lookup_insert_eq, Hround.
Qed.

Context `{!IndexView}.

(** X20.  The [schema] command never prints a result without a schema:
    when the resolver returns [undefined] the command throws "Schema
    unavailable"; a failure of the resolver is thrown as it is; with an
    index the command returns [ok] with the list id and one compact
    column for each column of the schema, in order, with the id, key,
    name and type of the column and with options exactly when the column
    has choices.  The command adds no event to those of the resolver. *)
Theorem schema_action_outcome env client listId schemaPath refreshSchema w :
  let run := resolveSchemaIndex env client listId schemaPath refreshSchema w in
  let action := schema_action env client listId schemaPath refreshSchema w in
  (run.1 = Returned None -> action = (Thrown schema_unavailable, run.2)) /\
  (forall e, run.1 = Thrown e -> action = (Thrown e, run.2)) /\
  (forall index, run.1 = Returned (Some index) ->
     exists compact,
       action = (Returned [("ok", JBool true); ("list_id", JStr listId);
                           ("columns", JArr compact)], run.2) /\
       length compact = length (columns (index_schema index)) /\
       forall i column,
         columns (index_schema index) !! i = Some column ->
         exists c,
           compact !! i = Some c /\
           get c "id" = JStr (col_id column) /\
           get c "key" = JStr (col_key column) /\
           get c "name" = JStr (col_name column) /\
           get c "type" = JStr (col_type column) /\
           (has_key "options" c = true <-> col_options column <> None)).
Proof.
  intros run action. subst run action. unfold schema_action, bind.
  destruct (resolveSchemaIndex env client listId schemaPath refreshSchema w)
    as [[[index|]|e] w1]; simpl.
  - split; [discriminate|]. split; [discriminate|].
    intros index' [= <-].
    exists (map compact_column (columns (index_schema index))).
    split; [reflexivity|]. split; [apply length_map|].
    intros i column Hi. exists (compact_column column).
    split; [by rewrite list_lookup_fmap, Hi|].
    repeat (split; [reflexivity|]).
    unfold compact_column. destruct (col_options column); simpl; split; done.
  - split; [done|]. split; [discriminate|]. discriminate.
  - split; [discriminate|]. split; [by intros ? [= <-]|]. discriminate.
Qed.

End Facts.

Import Demo Fixtures.

Lemma extractEvidence_keeps_evidence_fields_witness :
  JObj [("column_id", JStr "Col06"); ("attachment", JUndefined)]
    ∈ extractEvidence evidence_item.
Proof.
  destruct (extractEvidence_keeps_evidence_fields evidence_item) as (_ & Hfields & _).
  destruct (Hfields _ eq_refl eq_refl) as [_ Hin].
  apply (Hin _ "attachment").
  - do 3 apply list_elem_of_further. apply list_elem_of_here.
  - apply list_elem_of_here.
  - reflexivity.
Defined.

Lemma findField_returns_first_match_witness :
  exists before after,
    prop [("fields", JArr [JObj [("column_id", JStr "Col01")];
                           JObj field_two_dates; JObj field_one_select])] "fields"
    = JArr (before ++ JObj field_two_dates :: after) /\
    prop field_two_dates "column_id" = JStr "Col03" /\
    forall v, v ∈ before -> get v "column_id" <> JStr "Col03".
Proof.
  apply (findField_returns_first_match
           [("fields", JArr [JObj [("column_id", JStr "Col01")];
                             JObj field_two_dates; JObj field_one_select])] "Col03").
  reflexivity.
Defined.

Lemma syncSchemaCache_seeds_the_cache_witness :
  resolveSchemaIndex demo_env client_down "L1" None false
    (syncSchemaCache demo_env "L1" [item_sample] world_empty).2
  = (Returned (Some schema_inferred),
     with_events (syncSchemaCache demo_env "L1" [item_sample] world_empty).2
       [EvReadFile canonical_path]).
Proof.
  destruct (syncSchemaCache_seeds_the_cache demo_env client_down "L1" None [item_sample]
              schema_inferred None world_empty) as [_ Hnext].
  - reflexivity.
  - vm_compute. reflexivity.
  - split; vm_compute; reflexivity.
  - vm_compute. reflexivity.
  - reflexivity.
  - exact Hnext.
Defined.

Lemma schema_action_outcome_witness :
  schema_action demo_env (client_detail_fails unknown_method item_bare)
    "L1" None false world_empty
  = (Thrown schema_unavailable, world_detailed).
Proof.
  destruct (schema_action_outcome demo_env (client_detail_fails unknown_method item_bare)
              "L1" None false world_empty) as (Hnone & _).
  rewrite Hnone; vm_compute; reflexivity.
Defined.

End ItemsExtra.
